(** * The INDRA database preassembly manager

    A shallow embedding of [indra/db/preassembly_manager.py]: the
    deduplication of raw statements into unique (preassembled) statements,
    the discovery of refinement/support links by batch tiling, the
    incremental update, and the update ledger written by the
    [_handle_update_table] decorator.

    Python sets are [gset]s, the [defaultdict] of evidence is a [gmap],
    database tables are lists of rows (a table may hold the same row
    twice), and the methods that write to the database live in a state and
    exception monad over the store. *)

From stdpp Require Import gmap strings list sets fin_maps.

Set Warnings "-clear-no-such-hyp".

(** ** Statements and the collaborators of the manager

    [indra.statements], [indra.preassembler], [indra.tools.assemble_corpus]
    and [indra.db.util] are imported by the module and are not part of it.
    What the manager calls from them is gathered in one interface. *)

(** The tables of the database the manager reads and writes.  The JSON
    column of a statement table is the statement itself ([_stmt_from_json]
    reads back what was stored); the [mk_hash] column of [pa_statements]
    is the shallow hash of the stored statement. *)
Record DB (Statement : Type) := mkDB {
  raw_statements : list Statement;
  pa_statements : list Statement;
  raw_unique_links : list (Z * string);      (* pa_stmt_mk_hash, raw_stmt_uuid *)
  pa_support_links : list (Z * Z);           (* supported, supporting *)
  preassembly_updates : list (bool * nat)    (* corpus_init, run_datetime *)
}.
Arguments mkDB {_} _ _ _ _ _.
Arguments raw_statements {_} _.
Arguments pa_statements {_} _.
Arguments raw_unique_links {_} _.
Arguments pa_support_links {_} _.
Arguments preassembly_updates {_} _.

Class Collaborators (Statement : Type) := {
  (** [stmt.uuid] *)
  uuid : Statement → string;
  (** [stmt.matches_key()] *)
  matches_key : Statement → string;
  (** [stmt.get_hash(shallow=True)] *)
  get_hash : Statement → Z;
  (** [stmt.make_generic_copy()] *)
  make_generic_copy : Statement → Statement;
  (** [stmt1.refinement_of(stmt2, hierarchies)], the ontology test *)
  refinement_of : Statement → Statement → bool;
  (** [ac.map_grounding] and [ac.map_sequence] *)
  map_grounding : list Statement → list Statement;
  map_sequence : list Statement → list Statement;
  (** [indra.db.util.distill_stmts] *)
  distill_stmts : DB Statement → gset string
}.

(** ** Exceptions, the store and the monad of the database methods *)

Inductive exn := StoreError | ValueError | IndexError.

Inductive outcome (A : Type) :=
  | Returned (a : A)
  | Raised (e : exn).
Arguments Returned {_} _.
Arguments Raised {_} _.

(** The four bulk writes the manager issues. *)
Inductive DbWrite (Statement : Type) :=
  | InsertPA (stmts : list Statement)
  | CopyLinks (links : gset (Z * string))
  | CopySupport (links : gset (Z * Z))
  | InsertUpdate (corpus_init : bool) (run_datetime : nat).
Arguments InsertPA {_} _.
Arguments CopyLinks {_} _.
Arguments CopySupport {_} _.
Arguments InsertUpdate {_} _ _.

(** The world a run executes in: the database, a logical clock read by
    [datetime.utcnow()] that advances with every write, the number of
    writes the store still accepts before it fails with a [StoreError]
    ([None]: it never fails), and the journal of the writes performed with
    the time of each. *)
Record World (Statement : Type) := mkWorld {
  store : DB Statement;
  clock : nat;
  faults : option nat;
  journal : list (nat * DbWrite Statement)
}.
Arguments mkWorld {_} _ _ _ _.
Arguments store {_} _.
Arguments clock {_} _.
Arguments faults {_} _.
Arguments journal {_} _.

Definition M (Statement A : Type) : Type :=
  World Statement → outcome A * World Statement.

Global Instance M_ret {Statement} : MRet (M Statement) :=
  λ A a w, (Returned a, w).

Global Instance M_bind {Statement} : MBind (M Statement) :=
  λ A B k m w,
    match m w with
    | (Returned a, w') => k a w'
    | (Raised e, w') => (Raised e, w')
    end.

Definition raise {Statement A} (e : exn) : M Statement A := λ w, (Raised e, w).

Definition gets {Statement A} (f : DB Statement → A) : M Statement A :=
  λ w, (Returned (f (store w)), w).

Definition apply_write {Statement} (wr : DbWrite Statement) (d : DB Statement)
  : DB Statement :=
  match wr with
  | InsertPA stmts =>
      mkDB (raw_statements d) (pa_statements d ++ stmts) (raw_unique_links d)
           (pa_support_links d) (preassembly_updates d)
  | CopyLinks links =>
      mkDB (raw_statements d) (pa_statements d)
           (raw_unique_links d ++ elements links)
           (pa_support_links d) (preassembly_updates d)
  | CopySupport links =>
      mkDB (raw_statements d) (pa_statements d) (raw_unique_links d)
           (pa_support_links d ++ elements links) (preassembly_updates d)
  | InsertUpdate corpus_init run_datetime =>
      mkDB (raw_statements d) (pa_statements d) (raw_unique_links d)
           (pa_support_links d)
           (preassembly_updates d ++ [(corpus_init, run_datetime)])
  end.

(** Modelled from the spec: the bulk writes of the statement store
    ([insert_pa_stmts], [db.copy], [db.insert]) append rows; a write the
    store refuses raises [StoreError] and leaves the tables as they were. *)
Definition db_write {Statement} (wr : DbWrite Statement) : M Statement unit :=
  λ w, match faults w with
       | Some 0 => (Raised StoreError, w)
       | f => (Returned (),
               mkWorld (apply_write wr (store w)) (S (clock w)) (pred <$> f)
                       (journal w ++ [(clock w, wr)]))
       end.

Definition utcnow {Statement} : M Statement nat :=
  λ w, (Returned (clock w), w).

(** Modelled from the spec: [indra.util.batch_iter] with
    [return_lists=True], chunks of at most [batch_size] elements in order.
    A chunk size of zero yields no chunk at all. *)
Fixpoint batch_chunks {A} (fuel batch_size : nat) (l : list A) : list (list A) :=
  match fuel, l with
  | S fuel, _ :: _ =>
      take batch_size l :: batch_chunks fuel batch_size (drop batch_size l)
  | _, _ => []
  end.

Definition batch_iter {A} (l : list A) (batch_size : nat) : list (list A) :=
  match batch_size with
  | 0 => []
  | _ => batch_chunks (length l) batch_size l
  end.

Section Manager.
Context {Statement : Type} `{!Collaborators Statement}.

(** *** Deduplication *)

(** Modelled from the spec: [Preassembler._get_stmt_matching_groups]
    partitions the statements into groups of identical matches key; a
    group is its key, its first member and the members after it. *)
Fixpoint add_to_groups (s : Statement)
    (groups : list (string * (Statement * list Statement)))
  : list (string * (Statement * list Statement)) :=
  match groups with
  | [] => [(matches_key s, (s, []))]
  | (k, (s0, dups)) :: gs =>
      if decide (k = matches_key s) then (k, (s, s0 :: dups)) :: gs
      else (k, (s0, dups)) :: add_to_groups s gs
  end.

Fixpoint _get_stmt_matching_groups (stmts : list Statement)
  : list (string * (Statement * list Statement)) :=
  match stmts with
  | [] => []
  | s :: rest => add_to_groups s (_get_stmt_matching_groups rest)
  end.

Definition flatten_evidence_dict (ev_dict : gmap Z (gset string))
  : gset (Z * string) :=
  list_to_set
    (map_to_list ev_dict ≫= λ '(u_stmt_key, ev_stmt_uuid_set),
       (λ ev_stmt_uuid, (u_stmt_key, ev_stmt_uuid))
         <$> elements ev_stmt_uuid_set).

(** [evidence_links[key].add(u)] on a [defaultdict(lambda: set())] *)
Definition evidence_add (evidence_links : gmap Z (gset string))
    (key : Z) (u : string) : gmap Z (gset string) :=
  <[key := default ∅ (evidence_links !! key) ∪ {[u]}]> evidence_links.

Definition _make_unique_statement_set (stmts : list Statement)
  : list Statement * gset (Z * string) :=
  let stmts := map_grounding stmts in
  let stmts := map_sequence stmts in
  let stmt_groups := _get_stmt_matching_groups stmts in
  let '(unique_stmts, evidence_links) :=
    foldl (λ '(unique_stmts, evidence_links) '(_, (stmt0, rest)),
             let first_stmt := make_generic_copy stmt0 in
             let evidence_links :=
               foldl (λ ev stmt, evidence_add ev (get_hash first_stmt) (uuid stmt))
                     evidence_links (stmt0 :: rest) in
             (unique_stmts ++ [first_stmt], evidence_links))
          ([], ∅) stmt_groups in
  (unique_stmts, flatten_evidence_dict evidence_links).

(** The loop over [unique_stmts] in [_get_unique_statements] that keeps
    the statements whose hash is neither done nor new so far. *)
Definition select_new (mk_done : gset Z) (new_mk_set : gset Z)
    (unique_stmts : list Statement) : gset Z * list Statement :=
  foldl (λ '(new_mk_set, new_unique_stmts) s,
           let s_hash := get_hash s in
           if decide (s_hash ∉ mk_done ∪ new_mk_set)
           then ({[s_hash]} ∪ new_mk_set, new_unique_stmts ++ [s])
           else (new_mk_set, new_unique_stmts))
        (new_mk_set, []) unique_stmts.

(** One turn of the batch loop of [_get_unique_statements]. *)
Definition dedup_batch (mk_done new_mk_set : gset Z)
    (stmt_batch : list Statement) : M Statement (gset Z) :=
  let '(unique_stmts, evidence_links) :=
    _make_unique_statement_set stmt_batch in
  let '(new_mk_set, new_unique_stmts) :=
    select_new mk_done new_mk_set unique_stmts in
  db_write (InsertPA new_unique_stmts) ;;
  db_write (CopyLinks evidence_links) ;;
  mret new_mk_set.

(** The batch loop itself, over the batches [batch_iter] yields. *)
Fixpoint dedup_batches (mk_done new_mk_set : gset Z)
    (batches : list (list Statement)) : M Statement (gset Z) :=
  match batches with
  | [] => mret new_mk_set
  | stmt_batch :: batches =>
      new_mk_set ← dedup_batch mk_done new_mk_set stmt_batch;
      dedup_batches mk_done new_mk_set batches
  end.

Record PreassemblyManager := mkManager { n_proc : nat; batch_size : nat }.

Definition _get_unique_statements (self : PreassemblyManager)
    (stmts : list Statement) (num_stmts : nat) (mk_done : option (gset Z))
  : M Statement (gset Z) :=
  let mk_done := default ∅ mk_done in
  dedup_batches mk_done ∅ (batch_iter stmts (batch_size self)).

(** *** Refinement links *)

(** Modelled from the spec: [Preassembler._generate_id_maps], the
    Refinement Link Finder.  Without a split index every ordered pair of
    distinct positions of the list is in scope; with split index [k] the
    pairs with one position in [0,k) and the other in [k,len), in both
    orders.  A pair in scope whose first statement refines the second is
    returned.  The pool size only distributes the work. *)
Definition in_scope (split_idx : option nat) (i j : nat) : bool :=
  match split_idx with
  | None => bool_decide (i ≠ j)
  | Some k => bool_decide (i < k ≤ j) || bool_decide (j < k ≤ i)
  end.

Definition _generate_id_maps (unique_stmts : list Statement)
    (poolsize : option nat) (split_idx : option nat) : list (nat * nat) :=
  i ← seq 0 (length unique_stmts);
  j ← seq 0 (length unique_stmts);
  match unique_stmts !! i, unique_stmts !! j with
  | Some a, Some b =>
      if in_scope split_idx i j && refinement_of a b then [(i, j)] else []
  | _, _ => []
  end.

(** [unique_stmts[idx]] raises [IndexError] out of range: [None]. *)
Definition _get_support_links (unique_stmts : list Statement)
    (poolsize : option nat) (split_idx : option nat) : option (gset (Z * Z)) :=
  let id_maps := _generate_id_maps unique_stmts poolsize split_idx in
  list_to_set <$>
    mapM (λ idx_pair : nat * nat,
            a ← unique_stmts !! idx_pair.1;
            b ← unique_stmts !! idx_pair.2;
            Some (get_hash a, get_hash b)) id_maps.

Definition get_support_links (unique_stmts : list Statement)
    (poolsize : option nat) (split_idx : option nat)
  : M Statement (gset (Z * Z)) :=
  match _get_support_links unique_stmts poolsize split_idx with
  | Some links => mret links
  | None => raise IndexError
  end.

(** *** The manager's database methods *)

Definition _get_latest_updatetime (db : DB Statement) : option nat :=
  match preassembly_updates db with
  | [] => None
  | update_list => Some (max_list update_list.*2)
  end.

Definition _pa_batch_iter (self : PreassemblyManager)
    (mk_set : option (gset Z)) : M Statement (list (list Statement)) :=
  gets (λ db,
    let pa_stmts :=
      match mk_set with
      | None => pa_statements db
      | Some mk_set => filter (λ s, get_hash s ∈ mk_set) (pa_statements db)
      end in
    batch_iter pa_stmts (batch_size self)).

(** A [for] loop that accumulates into [acc]. *)
Fixpoint for_each {A S : Type} (l : list A) (acc : S)
    (body : S → A → M Statement S) : M Statement S :=
  match l with
  | [] => mret acc
  | x :: l => acc ← body acc x; for_each l acc body
  end.

Definition enumerate {A : Type} (l : list A) : list (nat * A) :=
  imap (λ i x, (i, x)) l.

(** The two nested loops of [create_corpus] over the batches of unique
    statements; [read_batches] is the iterator both loops open
    ([self._pa_batch_iter(db)] in the method). *)
Definition tile_support_links (self : PreassemblyManager)
    (read_batches : M Statement (list (list Statement)))
  : M Statement (gset (Z * Z)) :=
  outer ← read_batches;
  for_each (enumerate outer) ∅ (λ support_links '(i, outer_batch),
    inner ← read_batches;
    for_each (enumerate inner) support_links (λ support_links '(j, inner_batch),
      if decide (i ≠ j) then
        let split_idx := length inner_batch in
        let full_list := inner_batch ++ outer_batch in
        links ← get_support_links full_list (Some (n_proc self)) (Some split_idx);
        mret (support_links ∪ links)
      else
        links ← get_support_links inner_batch (Some (n_proc self)) None;
        mret (support_links ∪ links))).

(** The body of [create_corpus], before the decorator. *)
Definition create_corpus_body (self : PreassemblyManager) (continuing : bool)
  : M Statement bool :=
  stmt_ids ← gets distill_stmts;
  '(stmt_ids, done_pa_ids) ←
    (if continuing then
       rows ← gets (λ db, (λ '(h, u), (u, h)) <$> raw_unique_links db);
       match rows with
       | [] => raise ValueError        (* zip( *[]) unpacks into nothing *)
       | _ =>
           let checked_raw_stmt_ids := rows.*1 in
           let pa_stmt_hashes := rows.*2 in
           mret (stmt_ids ∖ list_to_set checked_raw_stmt_ids,
                 list_to_set pa_stmt_hashes)
       end
     else mret (stmt_ids, ∅));
  stmts ← gets (λ db, filter (λ s, uuid s ∈ stmt_ids) (raw_statements db));
  (if decide (stmt_ids ≠ ∅)
   then _get_unique_statements self stmts (size stmt_ids) (Some done_pa_ids);;
        mret ()
   else mret ());;
  support_links ← tile_support_links self (_pa_batch_iter self None);
  db_write (CopySupport support_links);;
  mret true.

(** The ids [supplement_corpus] selects: the raw ids with no row in
    [raw_unique_links] ([new_uuid_q]), met with the distilled ids. *)
Definition new_stmt_ids_of (db : DB Statement) : gset string :=
  let old_uuid_q :=
    filter (λ u, u ∈ (raw_unique_links db).*2) (uuid <$> raw_statements db) in
  let all_new_stmt_ids : gset string :=
    list_to_set (uuid <$> raw_statements db) ∖ list_to_set old_uuid_q in
  let stmt_ids := distill_stmts db in
  all_new_stmt_ids ∩ stmt_ids.

(** The statements [supplement_corpus] hands to the deduplication,
    [new_stmts] in the method. *)
Definition new_stmts_of (db : DB Statement) : list Statement :=
  let new_stmt_ids := new_stmt_ids_of db in
  filter (λ s, uuid s ∈ new_stmt_ids) (raw_statements db).

(** The loop of [supplement_corpus] over the batches of new unique
    statements. *)
Definition supplement_support_links (self : PreassemblyManager)
    (new_mk_set old_mk_set : gset Z) : M Statement (gset (Z * Z)) :=
  npa ← _pa_batch_iter self (Some new_mk_set);
  for_each npa ∅ (λ new_support_links npa_batch,
    (* Compare internally *)
    links ← get_support_links npa_batch None None;
    let new_support_links := new_support_links ∪ links in
    (* Compare against the other new batch statements. *)
    let diff_new_mks := new_mk_set ∖ list_to_set (get_hash <$> npa_batch) in
    diff_npa ← _pa_batch_iter self (Some diff_new_mks);
    new_support_links ←
      for_each diff_npa new_support_links (λ new_support_links diff_npa_batch,
        let split_idx := length npa_batch in
        let full_list := npa_batch ++ diff_npa_batch in
        links ← get_support_links full_list (Some (n_proc self)) (Some split_idx);
        mret (new_support_links ∪ links));
    (* Compare against the existing statements. *)
    opa ← _pa_batch_iter self (Some old_mk_set);
    for_each opa new_support_links (λ new_support_links opa_batch,
      let split_idx := length npa_batch in
      let full_list := npa_batch ++ opa_batch in
      links ← get_support_links full_list (Some (n_proc self)) (Some split_idx);
      mret (new_support_links ∪ links))).

(** The body of [supplement_corpus], before the decorator. *)
Definition supplement_corpus_body (self : PreassemblyManager)
  : M Statement bool :=
  last_update ← gets _get_latest_updatetime;
  new_stmt_ids ← gets new_stmt_ids_of;
  new_stmts ← gets new_stmts_of;
  old_mk_set ← gets (λ db, list_to_set (get_hash <$> pa_statements db));
  new_mk_set ← _get_unique_statements self new_stmts (size new_stmt_ids)
                 (Some old_mk_set);
  new_support_links ← supplement_support_links self new_mk_set old_mk_set;
  db_write (CopySupport new_support_links);;
  mret true.

(** The decorator: [func] is the wrapped method, [func_name] its
    [__name__]. *)
Definition _handle_update_table (func_name : string) (func : M Statement bool)
  : M Statement bool :=
  run_datetime ← utcnow;
  completed ← func;
  (if (completed : bool) then
     let is_corpus_init := bool_decide (func_name = "create_corpus") in
     db_write (InsertUpdate is_corpus_init run_datetime)
   else mret ());;
  mret completed.

Definition create_corpus (self : PreassemblyManager) (continuing : bool)
  : M Statement bool :=
  _handle_update_table "create_corpus" (create_corpus_body self continuing).

Definition supplement_corpus (self : PreassemblyManager) : M Statement bool :=
  _handle_update_table "supplement_corpus" (supplement_corpus_body self).

End Manager.

(** ** The pipeline of the tests

    [_process_statements] and [_get_increment_links] run the deduplication
    and the link search on lists in memory.  A dictionary access that
    raises [KeyError], like a list access that raises [IndexError], is
    [None]. *)

Section Pipeline.
Context {Statement : Type} `{!Collaborators Statement}.

(** [{stmt.get_hash(shallow=True): stmt for stmt in unique_stmts}]: a later
    statement replaces an earlier one of the same hash. *)
Definition stmt_dict (unique_stmts : list Statement) : gmap Z Statement :=
  foldl (λ d stmt, <[get_hash stmt := stmt]> d) ∅ unique_stmts.

Definition _process_statements (stmts : list Statement)
    (poolsize split_idx : option nat)
  : option (gmap Z Statement * gset (Z * string) * gset (Z * Z)) :=
  let '(unique_stmts, evidence_links) := _make_unique_statement_set stmts in
  match_key_maps ← _get_support_links unique_stmts poolsize split_idx;
  let unique_stmt_dict := stmt_dict unique_stmts in
  Some (unique_stmt_dict, evidence_links, match_key_maps).

(** The lists [only_old_stmts] and [only_new_stmts] follow the iteration
    order of a set difference, here the order of [elements]. *)
Definition _get_increment_links (unique_stmt_dict new_unique_stmt_dict
    : gmap Z Statement) (poolsize : option nat) : option (gset (Z * Z)) :=
  let new_support_links : gset (Z * Z) := ∅ in
  let old_stmt_hash_set : gset Z := dom unique_stmt_dict in
  let new_stmt_hash_set : gset Z := dom new_unique_stmt_dict in
  only_old_stmts ←
    mapM (λ mk_hash, unique_stmt_dict !! mk_hash)
         (elements (old_stmt_hash_set ∖ new_stmt_hash_set));
  only_new_stmts ←
    mapM (λ mk_hash, new_unique_stmt_dict !! mk_hash)
         (elements (new_stmt_hash_set ∖ old_stmt_hash_set));
  let split_idx := length only_old_stmts + 1 in
  let merge_stmts := only_old_stmts ++ only_new_stmts in
  merge_support_links ←
    _get_support_links merge_stmts poolsize (Some split_idx);
  Some (new_support_links ∪ merge_support_links).

End Pipeline.

(** ** Definitions the proofs are stated with

    The worlds and stores after a sequence of writes, the writes a method
    issues as a function of the store it starts from, and the sets the
    properties compare. *)

Section ProofDefinitions.
Context {Statement : Type} `{!Collaborators Statement}.

Definition group_members (g : string * (Statement * list Statement))
  : list Statement := g.2.1 :: g.2.2.

Definition normalize (stmts : list Statement) : list Statement :=
  map_sequence (map_grounding stmts).

Definition group_links (g : string * (Statement * list Statement))
  : list (Z * string) :=
  (λ m, (get_hash (make_generic_copy g.2.1), uuid m)) <$> group_members g.

(** The body of the loop over the groups in [_make_unique_statement_set]. *)
Definition unique_step
  : list Statement * gmap Z (gset string) →
    string * (Statement * list Statement) →
    list Statement * gmap Z (gset string) :=
  λ '(unique_stmts, evidence_links) '(_, (stmt0, rest)),
    let first_stmt := make_generic_copy stmt0 in
    let evidence_links :=
      foldl (λ ev stmt, evidence_add ev (get_hash first_stmt) (uuid stmt))
            evidence_links (stmt0 :: rest) in
    (unique_stmts ++ [first_stmt], evidence_links).

Definition group_ok (g : string * (Statement * list Statement)) : Prop :=
  ∀ m, m ∈ group_members g → matches_key m = g.1.

(** The world after the store has accepted the write [wr]. *)
Definition write_ok (wr : DbWrite Statement) (w : World Statement)
  : World Statement :=
  mkWorld (apply_write wr (store w)) (S (clock w)) (pred <$> faults w)
          (journal w ++ [(clock w, wr)]).

Definition run_writes (ws : list (DbWrite Statement)) (w : World Statement)
  : World Statement := foldl (λ w wr, write_ok wr w) w ws.

Definition apply_writes (ws : list (DbWrite Statement)) (d : DB Statement)
  : DB Statement := foldl (λ d wr, apply_write wr d) d ws.

(** A sequence of writes issued one after the other. *)
Fixpoint exec_writes (ws : list (DbWrite Statement)) : M Statement unit :=
  match ws with
  | [] => mret ()
  | wr :: ws => db_write wr;; exec_writes ws
  end.

(** A run that issues the writes [ws] and returns [v]. *)
Definition run_plan {A} (ws : list (DbWrite Statement)) (v : A) : M Statement A :=
  exec_writes ws;; mret v.

(** How many of [n] writes a store with fault budget [f] accepts. *)
Definition accepted (f : option nat) (n : nat) : nat :=
  match f with None => n | Some k => k `min` n end.

Definition completes (f : option nat) (n : nat) : bool :=
  bool_decide (accepted f n = n).

Definition pa_of (ws : list (DbWrite Statement)) : list Statement :=
  ws ≫= λ wr, match wr with InsertPA l => l | _ => [] end.
Definition links_of (ws : list (DbWrite Statement)) : list (Z * string) :=
  ws ≫= λ wr, match wr with CopyLinks l => elements l | _ => [] end.
Definition support_of (ws : list (DbWrite Statement)) : list (Z * Z) :=
  ws ≫= λ wr, match wr with CopySupport l => elements l | _ => [] end.
Definition updates_of (ws : list (DbWrite Statement)) : list (bool * nat) :=
  ws ≫= λ wr, match wr with InsertUpdate b t => [(b, t)] | _ => [] end.

(** The writes of the batch loop of [_get_unique_statements] and the set
    of new hashes it returns. *)
Fixpoint dedup_plan (mk_done new_mk_set : gset Z)
    (batches : list (list Statement)) : gset Z * list (DbWrite Statement) :=
  match batches with
  | [] => (new_mk_set, [])
  | stmt_batch :: batches =>
      let made := _make_unique_statement_set stmt_batch in
      let sel := select_new mk_done new_mk_set made.1 in
      let rest := dedup_plan mk_done sel.1 batches in
      (rest.1, InsertPA sel.2 :: CopyLinks made.2 :: rest.2)
  end.

Definition select_step (mk_done : gset Z)
  : gset Z * list Statement → Statement → gset Z * list Statement :=
  λ '(new_mk_set, new_unique_stmts) s,
    let s_hash := get_hash s in
    if decide (s_hash ∉ mk_done ∪ new_mk_set)
    then ({[s_hash]} ∪ new_mk_set, new_unique_stmts ++ [s])
    else (new_mk_set, new_unique_stmts).

Definition hashes (l : list Statement) : gset Z :=
  list_to_set (get_hash <$> l).

Definition evidence (l : list Statement) : gset (Z * string) :=
  list_to_set ((λ m, (get_hash m, uuid m)) <$> l).

(** The unique statements the batches yield, batch by batch. *)
Definition unique_of (batches : list (list Statement)) : list Statement :=
  batches ≫= λ b, (_make_unique_statement_set b).1.

(** The evidence links the batches yield, batch by batch. *)
Definition batch_links (batches : list (list Statement)) : list (Z * string) :=
  batches ≫= λ b, elements (_make_unique_statement_set b).2.

(** The links [_get_support_links] returns (it never fails on the
    positions [_generate_id_maps] gives it). *)
Definition support_links_of (unique_stmts : list Statement)
    (split_idx : option nat) : gset (Z * Z) :=
  default ∅ (_get_support_links unique_stmts None split_idx).

(** A refinement between a statement of [l1] and one of [l2], in either
    direction. *)
Definition cross_link (l1 l2 : list Statement) (x y : Z) : Prop :=
  ∃ a b, a ∈ l1 ∧ b ∈ l2 ∧
    ((refinement_of a b = true ∧ x = get_hash a ∧ y = get_hash b)
     ∨ (refinement_of b a = true ∧ x = get_hash b ∧ y = get_hash a)).

(** What one turn of the inner loop of [create_corpus] adds. *)
Definition tile (i : nat) (outer_batch : list Statement)
    (jb : nat * list Statement) : gset (Z * Z) :=
  if decide (i ≠ jb.1)
  then support_links_of (jb.2 ++ outer_batch) (Some (length jb.2))
  else support_links_of jb.2 None.

(** The links the two nested loops of [create_corpus] accumulate. *)
Definition tiled_links (batches : list (list Statement)) : gset (Z * Z) :=
  ⋃ ((λ ib : nat * list Statement,
        ⋃ (tile ib.1 ib.2 <$> enumerate batches)) <$> enumerate batches).

(** The ids [create_corpus] is left with and the done set it starts
    from; [None] when the unpacking of [zip] raises. *)
Definition create_inputs (continuing : bool) (d : DB Statement)
  : option (gset string * gset Z) :=
  let stmt_ids := distill_stmts d in
  if continuing then
    match raw_unique_links d with
    | [] => None
    | _ => Some (stmt_ids ∖ list_to_set (raw_unique_links d).*2,
                 list_to_set (raw_unique_links d).*1)
    end
  else Some (stmt_ids, ∅).

(** The statements [create_corpus] deduplicates. *)
Definition create_stmts (stmt_ids : gset string) (d : DB Statement)
  : list Statement :=
  filter (λ s, uuid s ∈ stmt_ids) (raw_statements d).

(** The writes of the deduplication phase of [create_corpus]. *)
Definition create_dedup_writes (self : PreassemblyManager)
    (stmt_ids : gset string) (done_pa_ids : gset Z) (d : DB Statement)
  : list (DbWrite Statement) :=
  if decide (stmt_ids ≠ ∅)
  then (dedup_plan done_pa_ids ∅
          (batch_iter (create_stmts stmt_ids d) (batch_size self))).2
  else [].

(** All the writes of the body of [create_corpus]. *)
Definition create_plan (self : PreassemblyManager) (continuing : bool)
    (d : DB Statement) : option (list (DbWrite Statement)) :=
  match create_inputs continuing d with
  | None => None
  | Some (stmt_ids, done_pa_ids) =>
      let ws := create_dedup_writes self stmt_ids done_pa_ids d in
      Some (ws ++ [CopySupport
                     (tiled_links (batch_iter (pa_statements d ++ pa_of ws)
                                              (batch_size self)))])
  end.

(** The links the loop of [supplement_corpus] accumulates over the table
    [pa] of unique statements. *)
Definition supplement_links (self : PreassemblyManager)
    (pa : list Statement) (new_mk_set old_mk_set : gset Z) : gset (Z * Z) :=
  let batches (mk_set : gset Z) :=
    batch_iter (filter (λ s, get_hash s ∈ mk_set) pa) (batch_size self) in
  ⋃ ((λ npa_batch,
        support_links_of npa_batch None
        ∪ ⋃ ((λ diff_npa_batch,
                support_links_of (npa_batch ++ diff_npa_batch)
                                 (Some (length npa_batch)))
             <$> batches (new_mk_set ∖ hashes npa_batch))
        ∪ ⋃ ((λ opa_batch,
                support_links_of (npa_batch ++ opa_batch)
                                 (Some (length npa_batch)))
             <$> batches old_mk_set))
     <$> batches new_mk_set).

(** The deduplication of [supplement_corpus]: new hashes and writes. *)
Definition supplement_dedup (self : PreassemblyManager) (d : DB Statement)
  : gset Z * list (DbWrite Statement) :=
  dedup_plan (hashes (pa_statements d)) ∅
             (batch_iter (new_stmts_of d) (batch_size self)).

(** All the writes of the body of [supplement_corpus]. *)
Definition supplement_plan (self : PreassemblyManager) (d : DB Statement)
  : list (DbWrite Statement) :=
  let dp := supplement_dedup self d in
  dp.2 ++ [CopySupport
             (supplement_links self (pa_statements d ++ pa_of dp.2) dp.1
                               (hashes (pa_statements d)))].

(** The two tasks of the command line: [create], with or without
    [--continue], and [update]. *)
Inductive task := Create (continuing : bool) | Update.

Definition run_task (self : PreassemblyManager) (t : task)
  : M Statement bool :=
  match t with
  | Create continuing => create_corpus self continuing
  | Update => supplement_corpus self
  end.

Definition is_create (t : task) : bool :=
  match t with Create _ => true | Update => false end.

(** The writes of the method a task runs, before the ledger write. *)
Definition body_plan (self : PreassemblyManager) (t : task)
    (d : DB Statement) : option (list (DbWrite Statement)) :=
  match t with
  | Create continuing => create_plan self continuing d
  | Update => Some (supplement_plan self d)
  end.

Definition is_update_write (wr : DbWrite Statement) : bool :=
  match wr with InsertUpdate _ _ => true | _ => false end.

(** The unique statements have distinct hashes, and each of their hashes
    has an evidence link. *)
Definition linked (d : DB Statement) : Prop :=
  NoDup (get_hash <$> pa_statements d)
  ∧ hashes (pa_statements d) ⊆ list_to_set (raw_unique_links d).*1.

(** What a task expects of the store it starts from: an initial build
    fills an empty table of unique statements, a continued build finds
    every unique statement linked, an update finds distinct hashes. *)
Definition ready (t : task) (d : DB Statement) : Prop :=
  match t with
  | Create false => pa_statements d = []
  | Create true => linked d
  | Update => NoDup (get_hash <$> pa_statements d)
  end.



(** New raw statements arrive between two runs. *)
Definition ingest (stmts : list Statement) (w : World Statement)
  : World Statement :=
  mkWorld (mkDB (raw_statements (store w) ++ stmts) (pa_statements (store w))
                (raw_unique_links (store w)) (pa_support_links (store w))
                (preassembly_updates (store w)))
          (clock w) (faults w) (journal w).

(** A refinement between two unique statements of [pa], as a pair of
    distinct hashes. *)
Definition hash_link (pa : list Statement) (x y : Z) : Prop :=
  ∃ a b, a ∈ pa ∧ b ∈ pa ∧ refinement_of a b = true
         ∧ x = get_hash a ∧ y = get_hash b ∧ x ≠ y.

End ProofDefinitions.

(** ** A small instance to run the manager on

    A statement is a uuid and its text; the text is the matches key, its
    length stands for the hash, and a longer text refines a shorter one.
    [A] and [B] are the same fact from two sources, [C] generalises
    them. *)
Module Toy.

Definition Stmt : Type := string * string.

Definition hash_of (s : Stmt) : Z := Z.of_nat (String.length s.2).

Global Instance toy : Collaborators Stmt := {|
  uuid := fst;
  matches_key := snd;
  get_hash := hash_of;
  make_generic_copy := λ s, (""%string, s.2);
  refinement_of := λ a b, bool_decide (hash_of b < hash_of a)%Z;
  map_grounding := id;
  map_sequence := id;
  distill_stmts := λ db, list_to_set (fst <$> raw_statements db)
|}.

Definition A : Stmt := ("a", "XpY@S")%string.
Definition B : Stmt := ("b", "XpY@S")%string.
Definition C : Stmt := ("c", "XpY")%string.

Definition fresh (raw : list Stmt) (faults : option nat) : World Stmt :=
  mkWorld (mkDB raw [] [] [] []) 0 faults [].

Definition mgr1 : PreassemblyManager := mkManager 1 1.
Definition mgr2 : PreassemblyManager := mkManager 1 2.

End Toy.

(** ** A second small instance

    As the first, but for two collaborators: distilling keeps, of the raw
    statements of one text, the one stored last, and a statement refines
    every statement whose text is not longer, one of its own hash
    included. *)
Module Toy2.

Record Stmt2 : Type := mkStmt2 { id_of : string; text_of : string }.

Definition hash2 (s : Stmt2) : Z := Z.of_nat (String.length (text_of s)).

(** The uuids of the statements no later statement repeats the text of. *)
Fixpoint newest (raw : list Stmt2) : list string :=
  match raw with
  | [] => []
  | s :: raw =>
      if bool_decide (text_of s ∈ text_of <$> raw) then newest raw
      else id_of s :: newest raw
  end.

Global Instance toy2 : Collaborators Stmt2 := {|
  uuid := id_of;
  matches_key := text_of;
  get_hash := hash2;
  make_generic_copy := λ s, mkStmt2 "" (text_of s);
  refinement_of := λ a b, bool_decide (hash2 b ≤ hash2 a)%Z;
  map_grounding := id;
  map_sequence := id;
  distill_stmts := λ db, list_to_set (newest (raw_statements db))
|}.



End Toy2.

(** * Properties *)

Section Dedup.
Context {Statement : Type} `{!Collaborators Statement}.
Implicit Types (s m : Statement) (l stmts : list Statement).
Implicit Types (gs : list (string * (Statement * list Statement))).

Lemma concat_mjoin {A} (ls : list (list A)) : concat ls = mjoin ls.
Proof. induction ls as [|l ls IH]; [done|]. cbn. by rewrite IH. Qed.

Lemma concat_batch_chunks {A} fuel n (l : list A) :
  0 < n → length l ≤ fuel → concat (batch_chunks fuel n l) = l.
Proof.
  intros Hn. revert l. induction fuel as [|fuel IH]; intros l Hl.
  - destruct l; [done | simpl in Hl; lia].
  - destruct l as [|a l]; [done|].
    cbn [batch_chunks concat]. rewrite IH.
    + apply take_drop.
    + rewrite length_drop. simpl in *. lia.
Qed.

Lemma concat_batch_iter {A} (l : list A) n :
  0 < n → concat (batch_iter l n) = l.
Proof.
  intros Hn. unfold batch_iter. destruct n; [lia|].
  apply concat_batch_chunks; lia.
Qed.

Lemma add_to_groups_members s gs :
  concat (group_members <$> add_to_groups s gs)
  ≡ₚ s :: concat (group_members <$> gs).
Proof.
  induction gs as [|[k [s0 dups]] gs IH]; [done|].
  cbn [add_to_groups]. case_decide.
  - reflexivity.
  - rewrite !fmap_cons. cbn [concat]. rewrite IH.
    by rewrite Permutation_middle.
Qed.

Lemma groups_members l :
  concat (group_members <$> _get_stmt_matching_groups l) ≡ₚ l.
Proof.
  induction l as [|s l IH]; [done|].
  cbn [_get_stmt_matching_groups]. rewrite add_to_groups_members.
  by rewrite IH.
Qed.

Lemma add_to_groups_ok s gs :
  Forall group_ok gs → Forall group_ok (add_to_groups s gs).
Proof.
  induction 1 as [|[k [s0 dups]] gs Hg Hgs IH]; cbn [add_to_groups].
  - constructor; [|done]. intros m Hm.
    apply list_elem_of_singleton in Hm. by subst.
  - case_decide; constructor; try done.
    intros m [->|Hm]%elem_of_cons; [done|]. by apply Hg.
Qed.

Lemma groups_ok l : Forall group_ok (_get_stmt_matching_groups l).
Proof.
  induction l; cbn [_get_stmt_matching_groups]; [done|].
  by apply add_to_groups_ok.
Qed.

(** Every statement is in a group, and only statements are. *)
Lemma elem_of_groups l m :
  m ∈ l ↔ ∃ g, g ∈ _get_stmt_matching_groups l ∧ m ∈ group_members g.
Proof.
  rewrite <- (groups_members l) at 1.
  rewrite concat_mjoin, list_elem_of_join. split.
  - intros (ms & Hm & (g & -> & Hg)%list_elem_of_fmap). eauto.
  - intros (g & Hg & Hm). exists (group_members g). split; [done|].
    apply list_elem_of_fmap. eauto.
Qed.

Lemma elem_of_flatten (ev : gmap Z (gset string)) k u :
  (k, u) ∈ flatten_evidence_dict ev ↔ ∃ S, ev !! k = Some S ∧ u ∈ S.
Proof.
  unfold flatten_evidence_dict.
  rewrite elem_of_list_to_set, list_elem_of_bind. split.
  - intros ([k' S] & Hin & Hm).
    apply list_elem_of_fmap in Hin as (u' & [= -> ->] & Hu).
    apply elem_of_map_to_list in Hm. apply elem_of_elements in Hu. eauto.
  - intros (S & Hk & Hu). exists (k, S). split.
    + apply list_elem_of_fmap. exists u. by rewrite elem_of_elements.
    + by apply elem_of_map_to_list.
Qed.

Lemma flatten_empty : flatten_evidence_dict ∅ = ∅.
Proof.
  apply set_eq. intros [k u]. rewrite elem_of_flatten.
  split; [|set_solver]. intros (S & HS & _). by rewrite lookup_empty in HS.
Qed.

Lemma flatten_add (ev : gmap Z (gset string)) k u :
  flatten_evidence_dict (evidence_add ev k u)
  = flatten_evidence_dict ev ∪ {[(k, u)]}.
Proof.
  apply set_eq. intros [k' u'].
  rewrite elem_of_union, !elem_of_flatten, elem_of_singleton.
  unfold evidence_add. destruct (decide (k = k')) as [<-|Hne].
  - rewrite lookup_insert_eq. split.
    + intros (S & [= <-] & [Hu| ->%elem_of_singleton]%elem_of_union); [|by right].
      left. destruct (ev !! k) as [S|]; [eauto | set_solver].
    + intros [(S & HS & Hu)|[= ->]]; eexists; (split; [done|]).
      * rewrite HS. set_solver.
      * set_solver.
  - rewrite lookup_insert_ne by done. split; [by left|].
    intros [?|[= ? ?]]; [done|by subst].
Qed.

Lemma flatten_add_members (ev : gmap Z (gset string)) k ms :
  flatten_evidence_dict (foldl (λ ev stmt, evidence_add ev k (uuid stmt)) ev ms)
  = flatten_evidence_dict ev ∪ list_to_set ((λ m, (k, uuid m)) <$> ms).
Proof.
  revert ev. induction ms as [|m ms IH]; intros ev; cbn [foldl].
  - set_solver.
  - rewrite IH, flatten_add. set_solver.
Qed.

Lemma unique_fold_spec gs us (ev : gmap Z (gset string)) :
  let r := foldl unique_step (us, ev) gs in
  r.1 = us ++ ((λ g, make_generic_copy g.2.1) <$> gs)
  ∧ flatten_evidence_dict r.2
    = flatten_evidence_dict ev ∪ list_to_set (gs ≫= group_links).
Proof.
  revert us ev. induction gs as [|[k [s0 dups]] gs IH]; intros us ev.
  - cbn. split; [by rewrite app_nil_r | set_solver].
  - cbn [foldl].
    assert (unique_step (us, ev) (k, (s0, dups))
            = (us ++ [make_generic_copy s0],
               foldl (λ ev stmt, evidence_add ev (get_hash (make_generic_copy s0))
                                   (uuid stmt)) ev (s0 :: dups))) as -> by done.
    match goal with |- context [foldl unique_step (?u, ?e) gs] =>
      destruct (IH u e) as [IH1 IH2] end.
    cbv zeta in IH1, IH2. split.
    + rewrite IH1. by rewrite <- app_assoc.
    + rewrite IH2, flatten_add_members.
      cbn [mbind list_bind]. unfold group_links at 2, group_members. cbn [fst snd].
      rewrite list_to_set_app_L. set_solver.
Qed.

Lemma make_unique_unfold stmts :
  _make_unique_statement_set stmts
  = let r := foldl unique_step ([], ∅)
               (_get_stmt_matching_groups (normalize stmts)) in
    (r.1, flatten_evidence_dict r.2).
Proof.
  unfold _make_unique_statement_set, normalize. cbv zeta.
  change (foldl _ ([], ∅) ?g) with (foldl unique_step ([], ∅) g).
  by destruct (foldl _ _ _).
Qed.

Lemma make_unique_fst stmts :
  (_make_unique_statement_set stmts).1
  = (λ g, make_generic_copy g.2.1) <$> _get_stmt_matching_groups (normalize stmts).
Proof.
  rewrite make_unique_unfold. cbv zeta. cbn [fst].
  by destruct (unique_fold_spec (_get_stmt_matching_groups (normalize stmts)) [] ∅)
    as [-> _].
Qed.

Lemma make_unique_snd stmts :
  (_make_unique_statement_set stmts).2
  = list_to_set (_get_stmt_matching_groups (normalize stmts) ≫= group_links).
Proof.
  rewrite make_unique_unfold. cbv zeta. cbn [snd].
  destruct (unique_fold_spec (_get_stmt_matching_groups (normalize stmts)) [] ∅)
    as [_ ->].
  rewrite flatten_empty. set_solver.
Qed.

End Dedup.

Section Runs.
Context {Statement : Type} `{!Collaborators Statement}.
Implicit Types (w : World Statement) (wr : DbWrite Statement).
Implicit Types (ws : list (DbWrite Statement)) (d : DB Statement).

Lemma bind_unfold {A B} (m : M Statement A) (k : A → M Statement B) w :
  (m ≫= k) w = match m w with
               | (Returned a, w') => k a w'
               | (Raised e, w') => (Raised e, w')
               end.
Proof. done. Qed.

Lemma db_write_eq wr w :
  db_write wr w = if decide (faults w = Some 0) then (Raised StoreError, w)
                  else (Returned (), write_ok wr w).
Proof.
  unfold db_write, write_ok.
  destruct (faults w) as [[|k]|]; case_decide; done || congruence.
Qed.

Lemma run_plan_nil {A} (v : A) w : run_plan [] v w = (Returned v, w).
Proof. done. Qed.

Lemma run_plan_cons {A} wr ws (v : A) w :
  run_plan (wr :: ws) v w
  = if decide (faults w = Some 0) then (Raised StoreError, w)
    else run_plan ws v (write_ok wr w).
Proof.
  unfold run_plan. cbn [exec_writes]. rewrite !bind_unfold, db_write_eq.
  by case_decide.
Qed.

Lemma run_plan_spec {A} ws (v : A) w :
  run_plan ws v w
  = (if completes (faults w) (length ws) then Returned v else Raised StoreError,
     run_writes (take (accepted (faults w) (length ws)) ws) w).
Proof.
  revert w. induction ws as [|wr ws IH]; intros w.
  - rewrite run_plan_nil. unfold completes, accepted.
    by destruct (faults w) as [[|k]|].
  - rewrite run_plan_cons. case_decide as Hf.
    + by rewrite Hf.
    + rewrite IH. cbn [faults write_ok length].
      assert (accepted (faults w) (S (length ws))
              = S (accepted (pred <$> faults w) (length ws))) as Hacc.
      { unfold accepted. destruct (faults w) as [[|k]|]; cbn; done || lia. }
      unfold completes. rewrite Hacc. cbn [take run_writes foldl].
      f_equal. repeat case_bool_decide; done || lia.
Qed.

Lemma run_plan_returned {A} ws (v r : A) w w' :
  run_plan ws v w = (Returned r, w') →
  r = v ∧ w' = run_writes ws w ∧ accepted (faults w) (length ws) = length ws.
Proof.
  rewrite run_plan_spec. unfold completes. case_bool_decide as Hc; [|done].
  intros [= <- <-]. by rewrite Hc, firstn_all.
Qed.


Lemma run_plan_None {A} ws (v : A) w :
  faults w = None → run_plan ws v w = (Returned v, run_writes ws w).
Proof.
  intros Hf. rewrite run_plan_spec, Hf. unfold completes, accepted.
  by rewrite bool_decide_eq_true_2, firstn_all.
Qed.

Lemma run_plan_bind {A B} ws1 (v1 : A) (k : A → M Statement B) ws2 (v : B) w :
  (∀ w1, store w1 = apply_writes ws1 (store w) → k v1 w1 = run_plan ws2 v w1) →
  (run_plan ws1 v1 ≫= k) w = run_plan (ws1 ++ ws2) v w.
Proof.
  revert w. induction ws1 as [|wr ws1 IH]; intros w Hk.
  - rewrite bind_unfold, run_plan_nil. by apply Hk.
  - rewrite bind_unfold. cbn [app]. rewrite !run_plan_cons.
    case_decide; [done|]. rewrite <- bind_unfold. apply IH.
    intros w1 Hw1. by apply Hk.
Qed.

Lemma store_run_writes ws w : store (run_writes ws w) = apply_writes ws (store w).
Proof. revert w. induction ws as [|wr ws IH]; intros w; [done|]. apply IH. Qed.

Lemma clock_run_writes ws w : clock (run_writes ws w) = clock w + length ws.
Proof.
  revert w. induction ws as [|wr ws IH]; intros w; cbn; [lia|].
  change (foldl _ ?w0 ws) with (run_writes ws w0). rewrite IH. cbn. lia.
Qed.

Lemma journal_run_writes ws w :
  journal (run_writes ws w) = journal w ++ imap (λ i wr, (clock w + i, wr)) ws.
Proof.
  revert w. induction ws as [|wr ws IH]; intros w; cbn.
  - by rewrite app_nil_r.
  - change (foldl _ ?w0 ws) with (run_writes ws w0). rewrite IH. cbn.
    rewrite <- app_assoc. cbn. do 2 f_equal; [f_equal; lia|].
    apply imap_ext. intros i x _. cbn. f_equal. lia.
Qed.


Lemma apply_writes_app ws1 ws2 d :
  apply_writes (ws1 ++ ws2) d = apply_writes ws2 (apply_writes ws1 d).
Proof. apply foldl_app. Qed.

Lemma raw_apply_writes ws d :
  raw_statements (apply_writes ws d) = raw_statements d.
Proof.
  revert d. induction ws as [|wr ws IH]; intros d; [done|].
  cbn. change (foldl _ ?d0 ws) with (apply_writes ws d0). rewrite IH.
  by destruct wr.
Qed.

Lemma pa_apply_writes ws d :
  pa_statements (apply_writes ws d) = pa_statements d ++ pa_of ws.
Proof.
  revert d. induction ws as [|wr ws IH]; intros d.
  - cbn. by rewrite app_nil_r.
  - cbn. change (foldl _ ?d0 ws) with (apply_writes ws d0). rewrite IH.
    destruct wr; cbn; try done. by rewrite <- app_assoc.
Qed.

Lemma links_apply_writes ws d :
  raw_unique_links (apply_writes ws d) = raw_unique_links d ++ links_of ws.
Proof.
  revert d. induction ws as [|wr ws IH]; intros d.
  - cbn. by rewrite app_nil_r.
  - cbn. change (foldl _ ?d0 ws) with (apply_writes ws d0). rewrite IH.
    destruct wr; cbn; try done. by rewrite <- app_assoc.
Qed.

Lemma support_apply_writes ws d :
  pa_support_links (apply_writes ws d) = pa_support_links d ++ support_of ws.
Proof.
  revert d. induction ws as [|wr ws IH]; intros d.
  - cbn. by rewrite app_nil_r.
  - cbn. change (foldl _ ?d0 ws) with (apply_writes ws d0). rewrite IH.
    destruct wr; cbn; try done. by rewrite <- app_assoc.
Qed.

Lemma updates_apply_writes ws d :
  preassembly_updates (apply_writes ws d)
  = preassembly_updates d ++ updates_of ws.
Proof.
  revert d. induction ws as [|wr ws IH]; intros d.
  - cbn. by rewrite app_nil_r.
  - cbn. change (foldl _ ?d0 ws) with (apply_writes ws d0). rewrite IH.
    destruct wr; cbn; try done. by rewrite <- app_assoc.
Qed.

(** *** The batch loop as a plan of writes *)

Lemma dedup_batch_plan mk_done new_mk_set stmt_batch w :
  dedup_batch mk_done new_mk_set stmt_batch w
  = let made := _make_unique_statement_set stmt_batch in
    let sel := select_new mk_done new_mk_set made.1 in
    run_plan [InsertPA sel.2; CopyLinks made.2] sel.1 w.
Proof.
  unfold dedup_batch. cbv zeta.
  destruct (_make_unique_statement_set stmt_batch) as [us ev]. cbn [fst snd].
  destruct (select_new mk_done new_mk_set us) as [new' nus]. cbn [fst snd].
  unfold run_plan. cbn [exec_writes]. rewrite !bind_unfold, !db_write_eq.
  case_decide; [done|]. rewrite !bind_unfold, !db_write_eq.
  by case_decide.
Qed.

Lemma dedup_batches_plan mk_done new_mk_set batches w :
  dedup_batches mk_done new_mk_set batches w
  = run_plan (dedup_plan mk_done new_mk_set batches).2
             (dedup_plan mk_done new_mk_set batches).1 w.
Proof.
  revert new_mk_set w. induction batches as [|b bs IH]; intros new_mk_set w.
  - done.
  - cbn [dedup_batches dedup_plan]. cbv zeta. cbn [fst snd].
    rewrite bind_unfold, dedup_batch_plan. cbv zeta. rewrite <- bind_unfold.
    change (InsertPA ?a :: CopyLinks ?b :: ?r) with ([InsertPA a; CopyLinks b] ++ r).
    apply run_plan_bind. intros w1 _. apply IH.
Qed.

End Runs.

Section DedupPlan.
Context {Statement : Type} `{!Collaborators Statement}.
Implicit Types (w : World Statement) (wr : DbWrite Statement).
Implicit Types (ws : list (DbWrite Statement)) (d : DB Statement).
Implicit Types (s m : Statement) (l us : list Statement).
Implicit Types (bs : list (list Statement)) (mk_done new_mk_set : gset Z).

Lemma hashes_app l1 l2 : hashes (l1 ++ l2) = hashes l1 ∪ hashes l2.
Proof. unfold hashes. by rewrite fmap_app, list_to_set_app_L. Qed.

Lemma elem_of_hashes l h : h ∈ hashes l ↔ ∃ s, s ∈ l ∧ get_hash s = h.
Proof.
  unfold hashes. rewrite elem_of_list_to_set, list_elem_of_fmap. naive_solver.
Qed.

Lemma hashes_cons s l : hashes (s :: l) = {[get_hash s]} ∪ hashes l.
Proof. done. Qed.

Lemma select_fold_spec mk_done new_mk_set acc us :
  ∃ nus,
    foldl (select_step mk_done) (new_mk_set, acc) us
    = (new_mk_set ∪ (hashes us ∖ mk_done), acc ++ nus)
    ∧ NoDup (get_hash <$> nus)
    ∧ nus ⊆ us
    ∧ hashes nus = hashes us ∖ (mk_done ∪ new_mk_set).
Proof.
  revert new_mk_set acc. induction us as [|s us IH]; intros new_mk_set acc.
  - exists []. rewrite app_nil_r. split_and!; try done.
    + cbn [foldl]. f_equal. unfold hashes. set_solver.
    + constructor.
    + unfold hashes. set_solver.
  - cbn [foldl]. unfold select_step at 2. cbv zeta. case_decide as Hs.
    + destruct (IH ({[get_hash s]} ∪ new_mk_set) (acc ++ [s]))
        as (nus & -> & Hnd & Hsub & Hh).
      exists (s :: nus). split_and!.
      * rewrite <- app_assoc. cbn [app]. f_equal.
        rewrite hashes_cons. set_solver.
      * rewrite fmap_cons. constructor; [|done].
        intros Hin. assert (get_hash s ∈ hashes nus) as Hin'.
        { unfold hashes. by apply elem_of_list_to_set. }
        rewrite Hh in Hin'. set_solver.
      * set_solver.
      * rewrite !hashes_cons, Hh. apply set_eq. intros x.
        destruct (decide (x = get_hash s)) as [->|]; set_solver.
    + destruct (IH new_mk_set acc) as (nus & -> & Hnd & Hsub & Hh).
      exists nus. split_and!; try done.
      * f_equal. rewrite hashes_cons. set_solver.
      * set_solver.
      * rewrite hashes_cons, Hh. set_solver.
Qed.

Lemma select_new_spec mk_done new_mk_set us :
  ∃ nus,
    select_new mk_done new_mk_set us
    = (new_mk_set ∪ (hashes us ∖ mk_done), nus)
    ∧ NoDup (get_hash <$> nus)
    ∧ nus ⊆ us
    ∧ hashes nus = hashes us ∖ (mk_done ∪ new_mk_set).
Proof.
  destruct (select_fold_spec mk_done new_mk_set [] us) as (nus & H1 & H2).
  exists nus. split; [|done]. exact H1.
Qed.

Lemma unique_of_cons b bs :
  unique_of (b :: bs) = (_make_unique_statement_set b).1 ++ unique_of bs.
Proof. done. Qed.

Lemma dedup_plan_new mk_done new_mk_set bs :
  (dedup_plan mk_done new_mk_set bs).1
  = new_mk_set ∪ (hashes (unique_of bs) ∖ mk_done).
Proof.
  revert new_mk_set. induction bs as [|b bs IH]; intros new_mk_set.
  - cbn. unfold hashes. set_solver.
  - cbn [dedup_plan]. cbv zeta. cbn [fst]. rewrite IH.
    destruct (select_new_spec mk_done new_mk_set (_make_unique_statement_set b).1)
      as (nus & -> & _). cbn [fst].
    rewrite unique_of_cons, hashes_app. set_solver.
Qed.

Lemma dedup_plan_pa mk_done new_mk_set bs :
  NoDup (get_hash <$> pa_of (dedup_plan mk_done new_mk_set bs).2)
  ∧ pa_of (dedup_plan mk_done new_mk_set bs).2 ⊆ unique_of bs
  ∧ hashes (pa_of (dedup_plan mk_done new_mk_set bs).2)
    = hashes (unique_of bs) ∖ (mk_done ∪ new_mk_set).
Proof.
  revert new_mk_set. induction bs as [|b bs IH]; intros new_mk_set.
  - cbn. split_and!; [constructor|done|]. unfold hashes. set_solver.
  - cbn [dedup_plan]. cbv zeta. cbn [fst snd].
    destruct (select_new_spec mk_done new_mk_set (_make_unique_statement_set b).1)
      as (nus & -> & Hnd & Hsub & Hh). cbn [fst snd].
    destruct (IH (new_mk_set ∪ (hashes (_make_unique_statement_set b).1 ∖ mk_done)))
      as (IHnd & IHsub & IHh).
    set (rest := pa_of (dedup_plan mk_done _ bs).2) in *.
    assert (pa_of (InsertPA nus :: CopyLinks (_make_unique_statement_set b).2
                     :: (dedup_plan mk_done
                           (new_mk_set ∪ (hashes (_make_unique_statement_set b).1
                                          ∖ mk_done)) bs).2)
            = nus ++ rest) as -> by done.
    rewrite unique_of_cons. split_and!.
    + rewrite fmap_app. apply NoDup_app. split_and!; [done| |done].
      intros h Hh1 Hh2.
      assert (h ∈ hashes nus) as H1 by by apply elem_of_list_to_set.
      assert (h ∈ hashes rest) as H2 by by apply elem_of_list_to_set.
      rewrite Hh in H1. rewrite IHh in H2. set_solver.
    + set_solver.
    + rewrite !hashes_app, Hh, IHh. apply set_eq. intros x.
      destruct (decide (x ∈ hashes (_make_unique_statement_set b).1));
        set_solver.
Qed.

Lemma dedup_plan_links mk_done new_mk_set bs :
  links_of (dedup_plan mk_done new_mk_set bs).2 = batch_links bs.
Proof.
  revert new_mk_set. induction bs as [|b bs IH]; intros new_mk_set; [done|].
  cbn [dedup_plan]. cbv zeta. cbn [snd].
  change (links_of (InsertPA ?a :: CopyLinks ?l :: ?r))
    with (elements l ++ links_of r).
  by rewrite IH.
Qed.


Lemma dedup_plan_support mk_done new_mk_set bs :
  support_of (dedup_plan mk_done new_mk_set bs).2 = []
  ∧ updates_of (dedup_plan mk_done new_mk_set bs).2 = [].
Proof.
  revert new_mk_set. induction bs as [|b bs IH]; intros new_mk_set; [done|].
  cbn [dedup_plan]. cbv zeta. cbn [snd]. apply IH.
Qed.

(** Every group of a batch puts all its links in the batch's link set and
    its representative among the batch's unique statements. *)
Lemma group_in_batch b g :
  g ∈ _get_stmt_matching_groups (normalize b) →
  make_generic_copy g.2.1 ∈ (_make_unique_statement_set b).1
  ∧ ∀ m, m ∈ group_members g →
      (get_hash (make_generic_copy g.2.1), uuid m)
        ∈ (_make_unique_statement_set b).2.
Proof.
  intros Hg. rewrite make_unique_fst, make_unique_snd. split.
  - apply list_elem_of_fmap. eauto.
  - intros m Hm. apply elem_of_list_to_set, list_elem_of_bind.
    exists g. split; [|done]. unfold group_links.
    apply list_elem_of_fmap. eauto.
Qed.

End DedupPlan.

Section DedupClaims.
Context {Statement : Type} `{!Collaborators Statement}.
Implicit Types (w : World Statement) (s m : Statement).

Lemma hashes_empty_nil (l : list Statement) : hashes l = ∅ → l = [].
Proof. destruct l as [|s l]; [done|]. rewrite hashes_cons. set_solver. Qed.

(** C5: every turn of the batch loop persists the whole evidence-link set
    of its chunk, with a link from each member of each group to the hash
    of the group's representative, whether or not that hash is new; the
    unique statements it inserts are only those whose hash is neither
    done nor already seen in this call. *)
Theorem evidence_links_emitted_regardless
    (mk_done new_mk_set : gset Z) (stmt_batch : list Statement) w new' w' :
  dedup_batch mk_done new_mk_set stmt_batch w = (Returned new', w') →
  raw_unique_links (store w')
    = raw_unique_links (store w)
      ++ elements (_make_unique_statement_set stmt_batch).2
  ∧ (∀ g m, g ∈ _get_stmt_matching_groups (normalize stmt_batch) →
            m ∈ group_members g →
            (get_hash (make_generic_copy g.2.1), uuid m)
              ∈ raw_unique_links (store w'))
  ∧ ∃ new_unique_stmts,
      pa_statements (store w') = pa_statements (store w) ++ new_unique_stmts
      ∧ ∀ s, s ∈ new_unique_stmts → get_hash s ∉ mk_done ∪ new_mk_set.
Proof.
  rewrite dedup_batch_plan. cbv zeta.
  intros (_ & -> & _)%run_plan_returned. rewrite store_run_writes.
  assert (raw_unique_links (apply_writes
            [InsertPA (select_new mk_done new_mk_set
                         (_make_unique_statement_set stmt_batch).1).2;
             CopyLinks (_make_unique_statement_set stmt_batch).2] (store w))
          = raw_unique_links (store w)
            ++ elements (_make_unique_statement_set stmt_batch).2) as Hl by done.
  split_and!.
  - done.
  - intros g m Hg Hm. rewrite Hl. apply elem_of_app. right.
    apply elem_of_elements. by apply group_in_batch.
  - eexists. split; [reflexivity|]. intros s Hs.
    destruct (select_new_spec mk_done new_mk_set
                (_make_unique_statement_set stmt_batch).1)
      as (nus & Hsel & _ & _ & Hh).
    rewrite Hsel in Hs. cbn [snd] in Hs.
    assert (get_hash s ∈ hashes nus) as Hin by (apply elem_of_hashes; eauto).
    rewrite Hh in Hin. set_solver.
Qed.

(** C4, as amended: once the hashes the first pass returned are merged
    into the done set, deduplicating the same statements again returns an
    empty set of new hashes, inserts no unique statement, and emits the
    same evidence links as the first pass. *)
Theorem rededup_after_merge (self : PreassemblyManager)
    (stmts : list Statement) (num_stmts : nat) (mk_done : option (gset Z))
    w new1 w1 new2 w2 :
  _get_unique_statements self stmts num_stmts mk_done w = (Returned new1, w1) →
  _get_unique_statements self stmts num_stmts
    (Some (default ∅ mk_done ∪ new1)) w1 = (Returned new2, w2) →
  new2 = ∅
  ∧ pa_statements (store w2) = pa_statements (store w1)
  ∧ ∃ links,
      raw_unique_links (store w1) = raw_unique_links (store w) ++ links
      ∧ raw_unique_links (store w2) = raw_unique_links (store w1) ++ links.
Proof.
  unfold _get_unique_statements. cbv zeta. cbn [default]. unfold id.
  set (bs := batch_iter stmts (batch_size self)).
  set (done0 := default ∅ mk_done).
  rewrite !dedup_batches_plan.
  intros (-> & -> & _)%run_plan_returned (-> & -> & _)%run_plan_returned.
  rewrite !store_run_writes.
  rewrite !pa_apply_writes, !links_apply_writes, !dedup_plan_links.
  rewrite !dedup_plan_new.
  split_and!.
  - apply set_eq. intros h. unfold id.
    destruct (decide (h ∈ done0)); set_solver.
  - match goal with |- _ ++ pa_of (dedup_plan ?X ∅ bs).2 = _ =>
      destruct (dedup_plan_pa X ∅ bs) as (_ & _ & Hh);
      assert (pa_of (dedup_plan X ∅ bs).2 = []) as ->
    end.
    { apply hashes_empty_nil. rewrite Hh. apply set_eq. intros h.
      unfold id. destruct (decide (h ∈ done0)); set_solver. }
    by rewrite app_nil_r.
  - eauto.
Qed.

End DedupClaims.

Section Links.
Context {Statement : Type} `{!Collaborators Statement}.
Implicit Types (w : World Statement) (s a b : Statement).
Implicit Types (l : list Statement) (bs : list (list Statement)).

Lemma in_scope_spec split i j :
  in_scope split i j = true ↔
  match split with
  | None => i ≠ j
  | Some k => (i < k ≤ j) ∨ (j < k ≤ i)
  end.
Proof.
  destruct split as [k|]; cbn.
  - rewrite orb_true_iff, !bool_decide_eq_true. done.
  - by rewrite bool_decide_eq_true.
Qed.

Lemma elem_of_id_maps l p split i j :
  (i, j) ∈ _generate_id_maps l p split ↔
  ∃ a b, l !! i = Some a ∧ l !! j = Some b
         ∧ in_scope split i j = true ∧ refinement_of a b = true.
Proof.
  unfold _generate_id_maps. rewrite list_elem_of_bind. split.
  - intros (i' & (j' & Hin & _)%list_elem_of_bind & _).
    destruct (l !! i') as [a|] eqn:Ha; [|by apply elem_of_nil in Hin].
    destruct (l !! j') as [b|] eqn:Hb; [|by apply elem_of_nil in Hin].
    destruct (in_scope split i' j' && refinement_of a b) eqn:Hc;
      [|by apply elem_of_nil in Hin].
    apply list_elem_of_singleton in Hin as [= -> ->].
    apply andb_true_iff in Hc as [? ?]. eauto 10.
  - intros (a & b & Ha & Hb & Hs & Hr).
    exists i. split; [|apply elem_of_seq; apply lookup_lt_Some in Ha; lia].
    apply list_elem_of_bind. exists j.
    split; [|apply elem_of_seq; apply lookup_lt_Some in Hb; lia].
    rewrite Ha, Hb, Hs, Hr. cbn. apply list_elem_of_singleton. done.
Qed.

Lemma mapM_elem_of {A B} (f : A → option B) (l : list A) (k : list B) y :
  mapM f l = Some k → y ∈ k ↔ ∃ x, x ∈ l ∧ f x = Some y.
Proof.
  intros Hm%mapM_Some_1. induction Hm as [|x y' l k Hxy Hlk IH].
  - split; [by intros ?%elem_of_nil|]. by intros (x & ?%elem_of_nil & _).
  - rewrite elem_of_cons, IH. split.
    + intros [->|(x' & ? & ?)]; [exists x | exists x']; set_solver.
    + intros (x' & [->|?]%elem_of_cons & Hx'); [left; congruence|right; eauto].
Qed.

Lemma get_support_links_spec l p split :
  ∃ S, _get_support_links l p split = Some S ∧
    ∀ x y, (x, y) ∈ S ↔
      ∃ i j a b, l !! i = Some a ∧ l !! j = Some b
        ∧ in_scope split i j = true ∧ refinement_of a b = true
        ∧ x = get_hash a ∧ y = get_hash b.
Proof.
  unfold _get_support_links. cbv zeta.
  set (f := λ idx_pair : nat * nat,
              a ← l !! idx_pair.1; b ← l !! idx_pair.2;
              Some (get_hash a, get_hash b)).
  assert (is_Some (mapM f (_generate_id_maps l p split))) as [k Hk].
  { apply mapM_is_Some_2, Forall_forall. intros [i j] Hin.
    apply elem_of_id_maps in Hin as (a & b & Ha & Hb & _).
    unfold f. cbn. rewrite Ha. cbn. rewrite Hb. cbn. done. }
  rewrite Hk. cbn. eexists. split; [done|]. intros x y.
  rewrite elem_of_list_to_set, (mapM_elem_of _ _ _ _ Hk). split.
  - intros ([i j] & Hin & Hf).
    apply elem_of_id_maps in Hin as (a & b & Ha & Hb & Hs & Hr).
    unfold f in Hf. cbn in Hf. rewrite Ha in Hf. cbn in Hf.
    rewrite Hb in Hf. cbn in Hf. injection Hf as <- <-. eauto 10.
  - intros (i & j & a & b & Ha & Hb & Hs & Hr & -> & ->).
    exists (i, j). split; [apply elem_of_id_maps; eauto 10|].
    unfold f. cbn. rewrite Ha. cbn. rewrite Hb. done.
Qed.

Lemma get_support_links_eq l p split :
  _get_support_links l p split = Some (support_links_of l split).
Proof.
  unfold support_links_of.
  destruct (get_support_links_spec l p split) as (S & HS & Hin).
  destruct (get_support_links_spec l None split) as (S' & HS' & Hin').
  rewrite HS, HS'. cbn. f_equal. apply set_eq. intros [x y].
  by rewrite Hin, Hin'.
Qed.

Lemma elem_of_support_links l split x y :
  (x, y) ∈ support_links_of l split ↔
  ∃ i j a b, l !! i = Some a ∧ l !! j = Some b
    ∧ in_scope split i j = true ∧ refinement_of a b = true
    ∧ x = get_hash a ∧ y = get_hash b.
Proof.
  destruct (get_support_links_spec l None split) as (S & HS & Hin).
  unfold support_links_of. rewrite HS. apply Hin.
Qed.

Lemma get_support_links_run l p split w :
  get_support_links l p split w = (Returned (support_links_of l split), w).
Proof. unfold get_support_links. by rewrite get_support_links_eq. Qed.

(** Across a split only the two sides matter, not the positions. *)
Lemma elem_of_cross l1 l2 x y :
  (x, y) ∈ support_links_of (l1 ++ l2) (Some (length l1)) ↔ cross_link l1 l2 x y.
Proof.
  rewrite elem_of_support_links. unfold cross_link. split.
  - intros (i & j & a & b & Ha & Hb & Hs & Hr & -> & ->).
    apply in_scope_spec in Hs.
    apply lookup_app_Some in Ha, Hb.
    destruct Hs as [[? ?]|[? ?]].
    + destruct Ha as [Ha|[? _]]; [|lia]. destruct Hb as [Hb|[_ Hb]].
      { apply lookup_lt_Some in Hb. lia. }
      exists a, b. split_and!; [by eapply list_elem_of_lookup_2 ..|]. by left.
    + destruct Hb as [Hb|[? _]]; [|lia]. destruct Ha as [Ha|[_ Ha]].
      { apply lookup_lt_Some in Ha. lia. }
      exists b, a. split_and!; [by eapply list_elem_of_lookup_2 ..|]. by right.
  - intros (a & b & [i Ha]%list_elem_of_lookup_1 & [j Hb]%list_elem_of_lookup_1 & Hc).
    pose proof (lookup_lt_Some _ _ _ Ha) as Hi.
    assert ((l1 ++ l2) !! i = Some a) as Ha' by by apply lookup_app_l_Some.
    assert ((l1 ++ l2) !! (length l1 + j) = Some b) as Hb'.
    { by rewrite lookup_app_r, Nat.add_sub' by lia. }
    destruct Hc as [(Hr & -> & ->)|(Hr & -> & ->)].
    + exists i, (length l1 + j), a, b. split_and!; try done.
      apply in_scope_spec. left. lia.
    + exists (length l1 + j), i, b, a. split_and!; try done.
      apply in_scope_spec. right. lia.
Qed.

Lemma cross_link_sym l1 l2 x y : cross_link l1 l2 x y ↔ cross_link l2 l1 x y.
Proof. unfold cross_link. naive_solver. Qed.

Lemma cross_link_join l bs x y :
  cross_link l (mjoin bs) x y ↔ ∃ j bj, bs !! j = Some bj ∧ cross_link l bj x y.
Proof.
  unfold cross_link. split.
  - intros (a & b & Ha & (bj & Hb & [j Hj]%list_elem_of_lookup_1)%list_elem_of_join & Hc).
    exists j, bj. eauto 10.
  - intros (j & bj & Hj & a & b & Ha & Hb & Hc). exists a, b.
    split_and!; try done. apply list_elem_of_join. exists bj.
    split; [done|]. by eapply list_elem_of_lookup_2.
Qed.

(** Within a concatenation: within either part, or across. *)
Lemma elem_of_within_app l1 l2 x y :
  (x, y) ∈ support_links_of (l1 ++ l2) None ↔
  (x, y) ∈ support_links_of l1 None ∨ (x, y) ∈ support_links_of l2 None
  ∨ cross_link l1 l2 x y.
Proof.
  rewrite <- elem_of_cross, !elem_of_support_links. split.
  - intros (i & j & a & b & Ha & Hb & Hs & Hr & -> & ->).
    apply in_scope_spec in Hs.
    pose proof Ha as Ha'. pose proof Hb as Hb'.
    apply lookup_app_Some in Ha, Hb.
    destruct Ha as [Ha|[Hi Ha]], Hb as [Hb|[Hj Hb]].
    + left. exists i, j, a, b. split_and!; try done. by apply in_scope_spec.
    + right. right. exists i, j, a, b. split_and!; try done.
      apply in_scope_spec. left. apply lookup_lt_Some in Ha. lia.
    + right. right. exists i, j, a, b. split_and!; try done.
      apply in_scope_spec. right. apply lookup_lt_Some in Hb. lia.
    + right. left. exists (i - length l1), (j - length l1), a, b.
      split_and!; try done. apply in_scope_spec. lia.
  - intros [H|[H|H]].
    + destruct H as (i & j & a & b & Ha & Hb & Hs & Hr & -> & ->).
      exists i, j, a, b. split_and!; try done; by apply lookup_app_l_Some.
    + destruct H as (i & j & a & b & Ha & Hb & Hs & Hr & -> & ->).
      apply in_scope_spec in Hs.
      exists (length l1 + i), (length l1 + j), a, b.
      split_and!; try done.
      * by rewrite lookup_app_r, Nat.add_sub' by lia.
      * by rewrite lookup_app_r, Nat.add_sub' by lia.
      * apply in_scope_spec. lia.
    + destruct H as (i & j & a & b & Ha & Hb & Hs & Hr & -> & ->).
      apply in_scope_spec in Hs.
      exists i, j, a, b. split_and!; try done. apply in_scope_spec. lia.
Qed.

(** With distinct hashes, distinct positions are distinct hashes. *)
Lemma elem_of_within_NoDup l x y :
  NoDup (get_hash <$> l) →
  (x, y) ∈ support_links_of l None ↔
  ∃ a b, a ∈ l ∧ b ∈ l ∧ refinement_of a b = true
         ∧ x = get_hash a ∧ y = get_hash b ∧ x ≠ y.
Proof.
  intros Hnd. rewrite elem_of_support_links. split.
  - intros (i & j & a & b & Ha & Hb & Hs & Hr & -> & ->).
    apply in_scope_spec in Hs.
    exists a, b. split_and!; try done; try by eapply list_elem_of_lookup_2.
    intros Heq. apply Hs. eapply NoDup_lookup; [exact Hnd| |].
    + rewrite list_lookup_fmap, Ha. done.
    + rewrite list_lookup_fmap, Hb. cbn. by rewrite Heq.
  - intros (a & b & [i Ha]%list_elem_of_lookup_1 & [j Hb]%list_elem_of_lookup_1
            & Hr & -> & -> & Hne).
    exists i, j, a, b. split_and!; try done. apply in_scope_spec.
    intros ->. congruence.
Qed.

End Links.

Section Tiling.
Context {Statement : Type} `{!Collaborators Statement}.
Implicit Types (w : World Statement) (s a b : Statement).
Implicit Types (l : list Statement) (bs : list (list Statement)).

(** A loop whose body only computes leaves the world alone. *)
Lemma for_each_pure {A S} (xs : list A) (acc : S)
    (body : S → A → M Statement S) (f : S → A → S) w :
  (∀ acc x, x ∈ xs → body acc x w = (Returned (f acc x), w)) →
  for_each xs acc body w = (Returned (foldl f acc xs), w).
Proof.
  revert acc. induction xs as [|x xs IH]; intros acc Hb; [done|].
  cbn [for_each foldl]. rewrite bind_unfold, Hb by set_solver.
  apply IH. intros acc' x' Hx'. apply Hb. set_solver.
Qed.

Lemma foldl_union {A} (f : A → gset (Z * Z)) (acc : gset (Z * Z)) (xs : list A) :
  foldl (λ acc x, acc ∪ f x) acc xs = acc ∪ ⋃ (f <$> xs).
Proof.
  revert acc. induction xs as [|x xs IH]; intros acc; cbn.
  - set_solver.
  - rewrite IH. set_solver.
Qed.

Lemma elem_of_enumerate {A} (xs : list A) i x :
  (i, x) ∈ enumerate xs ↔ xs !! i = Some x.
Proof.
  unfold enumerate. rewrite elem_of_lookup_imap. split.
  - by intros (i' & x' & [= -> ->] & ?).
  - intros ?. eauto.
Qed.

Lemma inner_loop_run (self : PreassemblyManager) (i : nat)
    (outer_batch : list Statement)
    (inner : list (nat * list Statement)) (acc : gset (Z * Z)) w :
  for_each inner acc (λ support_links '(j, inner_batch),
      if decide (i ≠ j) then
        let split_idx := length inner_batch in
        let full_list := inner_batch ++ outer_batch in
        links ← get_support_links full_list (Some (n_proc self)) (Some split_idx);
        mret (support_links ∪ links)
      else
        links ← get_support_links inner_batch (Some (n_proc self)) None;
        mret (support_links ∪ links)) w
  = (Returned (acc ∪ ⋃ (tile i outer_batch <$> inner)), w).
Proof.
  rewrite <- foldl_union. apply for_each_pure.
  intros acc' [j inner_batch] _. unfold tile. cbn [fst snd].
  case_decide; cbv zeta; by rewrite bind_unfold, get_support_links_run.
Qed.

(** The nested loops compute [tiled_links] of the batches read, and leave
    the world as it is. *)
Lemma tile_support_links_run (self : PreassemblyManager)
    (read_batches : M Statement (list (list Statement))) bs w :
  read_batches w = (Returned bs, w) →
  tile_support_links self read_batches w = (Returned (tiled_links bs), w).
Proof.
  intros Hread. unfold tile_support_links. rewrite bind_unfold, Hread.
  unfold tiled_links.
  rewrite <- (union_empty_l_L (⋃ _)), <- foldl_union.
  apply for_each_pure. intros acc [i outer_batch] _.
  rewrite bind_unfold, Hread. cbn [fst snd]. apply inner_loop_run.
Qed.

Lemma elem_of_tiled_links bs x y :
  (x, y) ∈ tiled_links bs ↔
  ∃ i bi j bj, bs !! i = Some bi ∧ bs !! j = Some bj
               ∧ (x, y) ∈ tile i bi (j, bj).
Proof.
  unfold tiled_links. rewrite elem_of_union_list. split.
  - intros (X & ([i bi] & -> & Hi%elem_of_enumerate)%list_elem_of_fmap & Hx).
    apply elem_of_union_list in Hx
      as (Y & ([j bj] & -> & Hj%elem_of_enumerate)%list_elem_of_fmap & Hy).
    exists i, bi, j, bj. done.
  - intros (i & bi & j & bj & Hi & Hj & Hx).
    eexists. split.
    + apply list_elem_of_fmap. exists (i, bi). split; [done|].
      by apply elem_of_enumerate.
    + apply elem_of_union_list. eexists. split; [|exact Hx].
      apply list_elem_of_fmap. exists (j, bj). split; [done|].
      by apply elem_of_enumerate.
Qed.

Lemma elem_of_tile i bi j bj x y :
  (x, y) ∈ tile i bi (j, bj) ↔
  (i ≠ j ∧ cross_link bj bi x y) ∨ (i = j ∧ (x, y) ∈ support_links_of bj None).
Proof.
  unfold tile. cbn [fst snd]. case_decide.
  - rewrite elem_of_cross. naive_solver.
  - naive_solver.
Qed.

(** Tiling is exhaustive and adds nothing: the links of all the tiles are
    the links within the concatenation of the batches. *)
Lemma tiling_correct bs :
  tiled_links bs = support_links_of (mjoin bs) None.
Proof.
  apply set_eq. intros [x y]. rewrite elem_of_tiled_links.
  induction bs as [|b bs IH].
  - split.
    + by intros (i & bi & j & bj & Hi & _).
    + rewrite elem_of_support_links.
      by intros (i & j & a & b & Ha & _).
  - change (mjoin (b :: bs)) with (b ++ mjoin bs).
    rewrite elem_of_within_app, <- IH, cross_link_join. split.
    + intros (i & bi & j & bj & Hi & Hj & Ht). apply elem_of_tile in Ht.
      destruct i as [|i], j as [|j]; cbn in Hi, Hj; simplify_eq.
      * destruct Ht as [[? _]|[_ Ht]]; [done|]. by left.
      * destruct Ht as [[_ Ht]|[? _]]; [|done].
        right. right. exists j, bj. split; [done|]. by apply cross_link_sym.
      * destruct Ht as [[_ Ht]|[? _]]; [|done].
        right. right. exists i, bi. done.
      * right. left. exists i, bi, j, bj. split_and!; [done|done|].
        apply elem_of_tile. destruct Ht as [[? ?]|[? ?]]; [left|right];
          (split; [lia|done]).
    + intros [Hw|[(i & bi & j & bj & Hi & Hj & Ht)|(j & bj & Hj & Hc)]].
      * exists 0, b, 0, b. split_and!; [done|done|].
        apply elem_of_tile. by right.
      * exists (S i), bi, (S j), bj. split_and!; [done|done|].
        apply elem_of_tile. apply elem_of_tile in Ht.
        destruct Ht as [[? ?]|[? ?]]; [left|right]; (split; [lia|done]).
      * exists (S j), bj, 0, b. split_and!; try done.
        apply elem_of_tile. left. split; [done|]. done.
Qed.

(** C2: for every list of batches, the nested loops of [create_corpus]
    return the union of the links of all ordered pairs of distinct
    batches (the finder called on batch j ++ batch i, split at the length
    of batch j) and of each batch alone, and that union is the set the
    link finder returns on the concatenation of the batches with no split
    index. *)
Theorem tiling_equals_untiled (self : PreassemblyManager) bs w :
  tile_support_links self (mret bs) w = (Returned (tiled_links bs), w)
  ∧ (∀ x y, (x, y) ∈ tiled_links bs ↔
       ∃ i bi j bj, bs !! i = Some bi ∧ bs !! j = Some bj ∧
         (x, y) ∈ (if decide (i ≠ j)
                   then support_links_of (bj ++ bi) (Some (length bj))
                   else support_links_of bj None))
  ∧ _get_support_links (concat bs) None None = Some (tiled_links bs).
Proof.
  split_and!.
  - by apply tile_support_links_run.
  - intros x y. apply elem_of_tiled_links.
  - rewrite get_support_links_eq, tiling_correct. by rewrite concat_mjoin.
Qed.

End Tiling.

Section Plans.
Context {Statement : Type} `{!Collaborators Statement}.
Implicit Types (w : World Statement) (wr : DbWrite Statement).
Implicit Types (ws : list (DbWrite Statement)) (d : DB Statement).
Implicit Types (self : PreassemblyManager).

Lemma bind_plan {A B} (m : M Statement A) ws1 (v1 : A)
    (k : A → M Statement B) ws2 (v : B) w :
  m w = run_plan ws1 v1 w →
  (∀ w1, store w1 = apply_writes ws1 (store w) → k v1 w1 = run_plan ws2 v w1) →
  (m ≫= k) w = run_plan (ws1 ++ ws2) v w.
Proof.
  intros Hm Hk. rewrite bind_unfold, Hm, <- bind_unfold.
  by apply run_plan_bind.
Qed.

Lemma write_then_ret {A} wr (v : A) w :
  (db_write wr;; mret v) w = run_plan [wr] v w.
Proof.
  unfold run_plan. cbn [exec_writes]. rewrite !bind_unfold, db_write_eq.
  by case_decide.
Qed.

Lemma rows_fst (links : list (Z * string)) :
  ((λ '(h, u), (u, h)) <$> links).*1 = links.*2.
Proof. induction links as [|[h u] ? IH]; [done|]. cbn. by rewrite IH. Qed.

Lemma rows_snd (links : list (Z * string)) :
  ((λ '(h, u), (u, h)) <$> links).*2 = links.*1.
Proof. induction links as [|[h u] ? IH]; [done|]. cbn. by rewrite IH. Qed.

Lemma get_unique_statements_plan self stmts n mk_done w :
  _get_unique_statements self stmts n mk_done w
  = run_plan (dedup_plan (default ∅ mk_done) ∅
                (batch_iter stmts (batch_size self))).2
             (dedup_plan (default ∅ mk_done) ∅
                (batch_iter stmts (batch_size self))).1 w.
Proof. unfold _get_unique_statements. cbv zeta. apply dedup_batches_plan. Qed.

Lemma pa_batch_iter_run self mk_set w :
  _pa_batch_iter self mk_set w
  = (Returned (batch_iter
                 match mk_set with
                 | None => pa_statements (store w)
                 | Some mk_set =>
                     filter (λ s, get_hash s ∈ mk_set) (pa_statements (store w))
                 end (batch_size self)), w).
Proof. done. Qed.

(** The body of [create_corpus] issues the writes of its plan, or raises
    before any write. *)
Lemma create_body_plan self continuing w :
  create_corpus_body self continuing w
  = match create_plan self continuing (store w) with
    | Some ws => run_plan ws true w
    | None => (Raised ValueError, w)
    end.
Proof.
  unfold create_corpus_body, create_plan, create_inputs. cbv zeta.
  rewrite bind_unfold. cbn [gets].
  assert (∀ stmt_ids done_pa_ids,
    (stmts ← gets (λ db, filter (λ s, uuid s ∈ stmt_ids) (raw_statements db));
     (if decide (stmt_ids ≠ ∅)
      then _get_unique_statements self stmts (size stmt_ids) (Some done_pa_ids);;
           mret ()
      else mret ());;
     support_links ← tile_support_links self (_pa_batch_iter self None);
     db_write (CopySupport support_links);;
     mret true) w
    = run_plan
        (create_dedup_writes self stmt_ids done_pa_ids (store w)
         ++ [CopySupport
               (tiled_links
                  (batch_iter
                     (pa_statements (store w)
                      ++ pa_of (create_dedup_writes self stmt_ids done_pa_ids
                                  (store w)))
                     (batch_size self)))]) true w) as Hrest.
  { intros stmt_ids done_pa_ids. rewrite bind_unfold. cbn [gets].
    apply bind_plan with (v1 := ()).
    - unfold create_dedup_writes, create_stmts. case_decide; [|reflexivity].
      rewrite <- (app_nil_r (dedup_plan _ _ _).2).
      eapply bind_plan; [apply get_unique_statements_plan|].
      intros w1 _. reflexivity.
    - intros w1 Hw1. rewrite bind_unfold.
      rewrite (tile_support_links_run self _ _ w1 (pa_batch_iter_run self None w1)).
      rewrite Hw1, pa_apply_writes. apply write_then_ret. }
  destruct continuing.
  - rewrite bind_unfold. cbv iota. rewrite bind_unfold. cbn [gets].
    destruct (raw_unique_links (store w)) as [|[h u] links] eqn:Hl;
      [reflexivity|].
    change ((λ '(h, u), (u, h)) <$> (h, u) :: links)
      with ((u, h) :: ((λ '(h, u), (u, h)) <$> links)).
    cbv iota beta. cbn [mret M_ret].
    change ((u, h) :: ((λ '(h, u), (u, h)) <$> links))
      with ((λ '(h, u), (u, h)) <$> (h, u) :: links).
    rewrite rows_fst, rows_snd. apply Hrest.
  - apply Hrest.
Qed.

Lemma for_each_union {A} (xs : list A) (acc : gset (Z * Z))
    (body : gset (Z * Z) → A → M Statement (gset (Z * Z)))
    (f : A → gset (Z * Z)) w :
  (∀ acc x, x ∈ xs → body acc x w = (Returned (acc ∪ f x), w)) →
  for_each xs acc body w = (Returned (acc ∪ ⋃ (f <$> xs)), w).
Proof.
  intros Hb. rewrite <- foldl_union. by apply for_each_pure.
Qed.

Lemma supplement_support_links_run self (new_mk_set old_mk_set : gset Z) w :
  supplement_support_links self new_mk_set old_mk_set w
  = (Returned (supplement_links self (pa_statements (store w))
                 new_mk_set old_mk_set), w).
Proof.
  unfold supplement_support_links, supplement_links. cbv zeta.
  rewrite bind_unfold, pa_batch_iter_run.
  rewrite <- (union_empty_l_L (⋃ _)).
  apply for_each_union. intros acc npa_batch _.
  rewrite bind_unfold, get_support_links_run.
  rewrite bind_unfold, pa_batch_iter_run.
  rewrite bind_unfold.
  erewrite (for_each_union _ _ _
    (λ diff_npa_batch, support_links_of (npa_batch ++ diff_npa_batch)
                         (Some (length npa_batch)))); last first.
  { intros acc' x _. cbv zeta. by rewrite bind_unfold, get_support_links_run. }
  rewrite bind_unfold, pa_batch_iter_run.
  erewrite (for_each_union _ _ _
    (λ opa_batch, support_links_of (npa_batch ++ opa_batch)
                    (Some (length npa_batch)))); last first.
  { intros acc' x _. cbv zeta. by rewrite bind_unfold, get_support_links_run. }
  f_equal. f_equal. unfold hashes. set_solver.
Qed.

Lemma supplement_body_plan self w :
  supplement_corpus_body self w
  = run_plan (supplement_plan self (store w)) true w.
Proof.
  unfold supplement_corpus_body, supplement_plan, supplement_dedup. cbv zeta.
  do 4 (rewrite bind_unfold; cbn [gets]).
  eapply bind_plan; [apply get_unique_statements_plan|].
  intros w1 Hw1. rewrite bind_unfold, supplement_support_links_run.
  rewrite Hw1, pa_apply_writes. cbn [default]. apply write_then_ret.
Qed.

(** The decorator appends the ledger write to the plan of the method. *)
Lemma handle_update_table_plan (func_name : string)
    (func : M Statement bool) ws w :
  func w = run_plan ws true w →
  _handle_update_table func_name func w
  = run_plan (ws ++ [InsertUpdate (bool_decide (func_name = "create_corpus"))
                                  (clock w)]) true w.
Proof.
  intros Hf. unfold _handle_update_table. rewrite bind_unfold. cbn [utcnow].
  eapply bind_plan; [exact Hf|]. intros w1 _. cbv zeta.
  rewrite bind_unfold, db_write_eq. unfold run_plan. cbn [exec_writes].
  rewrite !bind_unfold, db_write_eq. by case_decide.
Qed.

Lemma handle_update_table_raised (func_name : string)
    (func : M Statement bool) e w w' :
  func w = (Raised e, w') →
  _handle_update_table func_name func w = (Raised e, w').
Proof.
  intros Hf. unfold _handle_update_table. rewrite bind_unfold. cbn [utcnow].
  by rewrite bind_unfold, Hf.
Qed.

Lemma create_corpus_plan self continuing w :
  create_corpus self continuing w
  = match create_plan self continuing (store w) with
    | Some ws => run_plan (ws ++ [InsertUpdate true (clock w)]) true w
    | None => (Raised ValueError, w)
    end.
Proof.
  unfold create_corpus. pose proof (create_body_plan self continuing w) as Hb.
  destruct (create_plan self continuing (store w)) as [ws|].
  - by rewrite (handle_update_table_plan _ _ ws).
  - by apply handle_update_table_raised.
Qed.

Lemma supplement_corpus_plan self w :
  supplement_corpus self w
  = run_plan (supplement_plan self (store w) ++ [InsertUpdate false (clock w)])
             true w.
Proof.
  unfold supplement_corpus.
  by rewrite (handle_update_table_plan _ _ _ _ (supplement_body_plan self w)).
Qed.

End Plans.

Section Ledger.
Context {Statement : Type} `{!Collaborators Statement}.
Implicit Types (w : World Statement) (wr : DbWrite Statement).
Implicit Types (ws : list (DbWrite Statement)) (d : DB Statement).
Implicit Types (self : PreassemblyManager) (t : task).

Lemma run_task_plan self t w :
  run_task self t w
  = match body_plan self t (store w) with
    | Some ws => run_plan (ws ++ [InsertUpdate (is_create t) (clock w)]) true w
    | None => (Raised ValueError, w)
    end.
Proof.
  destruct t as [continuing|]; cbn [run_task body_plan is_create].
  - apply create_corpus_plan.
  - apply supplement_corpus_plan.
Qed.

Lemma updates_of_app ws1 ws2 :
  updates_of (ws1 ++ ws2) = updates_of ws1 ++ updates_of ws2.
Proof. unfold updates_of. apply bind_app. Qed.

Lemma updates_of_none ws :
  Forall (λ wr, is_update_write wr = false) ws → updates_of ws = [].
Proof.
  induction 1 as [|wr ws Hwr _ IH]; [done|].
  change (wr :: ws) with ([wr] ++ ws). rewrite updates_of_app, IH.
  by destruct wr.
Qed.

Lemma dedup_plan_no_update (mk_done new_mk_set : gset Z) bs :
  Forall (λ wr, is_update_write wr = false) (dedup_plan mk_done new_mk_set bs).2.
Proof.
  revert new_mk_set. induction bs as [|b bs IH]; intros new_mk_set; cbn.
  - constructor.
  - repeat constructor. apply IH.
Qed.

Lemma body_plan_no_update self t d ws :
  body_plan self t d = Some ws →
  Forall (λ wr, is_update_write wr = false) ws.
Proof.
  destruct t as [continuing|]; cbn [body_plan].
  - unfold create_plan. destruct (create_inputs _ _) as [[ids done']|]; [|done].
    intros [= <-]. apply Forall_app. split; [|by repeat constructor].
    unfold create_dedup_writes. case_decide; [|constructor].
    apply dedup_plan_no_update.
  - intros [= <-]. unfold supplement_plan. cbv zeta.
    apply Forall_app. split; [|by repeat constructor].
    apply dedup_plan_no_update.
Qed.

(** C6: the decorator writes nothing when the wrapped method returns a
    falsy value; a run of [create_corpus] or [supplement_corpus] appends
    one record to the ledger exactly when it returns (and what it returns
    is [True]); a run that raises leaves the ledger as it was; the
    record's flag says whether the run was [create_corpus]. *)
Theorem ledger_record_iff_completed self t w :
  (∀ (func_name : string) (g : World Statement → World Statement),
     _handle_update_table func_name (λ w0, (Returned false, g w0)) w
     = (Returned false, g w))
  ∧
  let r := run_task self t w in
  (r.1 = Returned true
   ∧ preassembly_updates (store r.2)
     = preassembly_updates (store w) ++ [(is_create t, clock w)])
  ∨ ((∃ e, r.1 = Raised e)
     ∧ preassembly_updates (store r.2) = preassembly_updates (store w)).
Proof.
  split; [done|].
  cbv zeta. rewrite run_task_plan.
  destruct (body_plan self t (store w)) as [ws|] eqn:Hplan; [|right; eauto].
  pose proof (body_plan_no_update _ _ _ _ Hplan) as Hno.
  rewrite run_plan_spec. cbn [fst snd]. rewrite store_run_writes.
  rewrite updates_apply_writes. unfold completes. case_bool_decide as Hc.
  - left. split; [done|]. rewrite Hc, firstn_all, updates_of_app.
    by rewrite (updates_of_none ws).
  - right. split; [eauto|].
    assert (accepted (faults w) (length (ws ++ [InsertUpdate (is_create t) (clock w)]))
            ≤ length ws) as Hle.
    { rewrite length_app in *. cbn [length] in *. unfold accepted in *.
      destruct (faults w); lia. }
    rewrite take_app_le by done.
    rewrite updates_of_none; [by rewrite app_nil_r|].
    by apply Forall_take.
Qed.

(** C10: the timestamp of the record a completed run appends is the time
    at which the decorated call was entered: every write of the run
    happened at that time or later, and the run completed strictly
    later. *)
Theorem ledger_timestamp_is_run_start self t w w' :
  run_task self t w = (Returned true, w') →
  last (preassembly_updates (store w')) = Some (is_create t, clock w)
  ∧ (∃ writes, journal w' = journal w ++ writes
       ∧ (∀ time wr, (time, wr) ∈ writes → clock w ≤ time < clock w')
       ∧ ∃ time, last writes = Some (time, InsertUpdate (is_create t) (clock w))
                 ∧ clock w < time)
  ∧ clock w < clock w'.
Proof.
  rewrite run_task_plan.
  destruct (body_plan self t (store w)) as [ws|] eqn:Hplan; [|done].
  intros (_ & -> & _)%run_plan_returned.
  pose proof (body_plan_no_update _ _ _ _ Hplan) as Hno.
  assert (0 < length ws) as Hlen.
  { destruct t as [c|]; cbn [body_plan] in Hplan.
    - unfold create_plan in Hplan.
      destruct (create_inputs _ _) as [[ids done']|]; [|done].
      injection Hplan as <-. rewrite length_app. cbn. lia.
    - injection Hplan as <-. unfold supplement_plan. cbv zeta.
      rewrite length_app. cbn. lia. }
  rewrite store_run_writes, updates_apply_writes, updates_of_app.
  rewrite (updates_of_none ws) by done.
  rewrite journal_run_writes, clock_run_writes, length_app. cbn [length].
  split_and!.
  - cbn. by rewrite last_snoc.
  - eexists. split; [done|]. split.
    + intros time wr (i & wr' & [= -> ->] & Hi)%elem_of_lookup_imap.
      apply lookup_lt_Some in Hi. rewrite length_app in Hi. cbn in Hi. lia.
    + rewrite imap_app. cbn [imap]. rewrite last_snoc.
      eexists. split; [done|]. lia.
  - lia.
Qed.

Lemma elem_of_new_stmt_ids d u :
  u ∈ new_stmt_ids_of d ↔
  u ∈ uuid <$> raw_statements d ∧ u ∈ distill_stmts d
  ∧ ∀ h, (h, u) ∉ raw_unique_links d.
Proof.
  unfold new_stmt_ids_of. cbv zeta.
  rewrite elem_of_intersection, elem_of_difference, !elem_of_list_to_set.
  rewrite list_elem_of_filter.
  assert (u ∈ (raw_unique_links d).*2 ↔ ∃ h, (h, u) ∈ raw_unique_links d) as ->.
  { rewrite list_elem_of_fmap. split.
    - intros ([h u'] & -> & Hin). eauto.
    - intros (h & Hin). by exists (h, u). }
  naive_solver.
Qed.

Lemma elem_of_new_stmts d (s : Statement) :
  s ∈ new_stmts_of d ↔
  s ∈ raw_statements d ∧ uuid s ∈ distill_stmts d
  ∧ ∀ h, (h, uuid s) ∉ raw_unique_links d.
Proof.
  unfold new_stmts_of. cbv zeta.
  rewrite list_elem_of_filter, elem_of_new_stmt_ids, list_elem_of_fmap.
  naive_solver.
Qed.

(** C9, as amended: with a positive batch size, the statements a
    completed [supplement_corpus] deduplicates are exactly the raw
    statements whose id is distilled and has no row in
    [raw_unique_links].  Each of them is in one of the batches handed to
    the deduplication; the evidence links of these batches, and no other,
    are appended; the hashes of the unique statements of these batches,
    and no other, join the table; and every statement of every group of
    a batch is linked to the hash of the unique statement of its group,
    which the table holds. *)
Theorem supplement_processes_unlinked self w w' :
  0 < batch_size self →
  supplement_corpus self w = (Returned true, w') →
  (∀ u, u ∈ new_stmt_ids_of (store w) ↔
        u ∈ uuid <$> raw_statements (store w)
        ∧ u ∈ distill_stmts (store w)
        ∧ ∀ h, (h, u) ∉ raw_unique_links (store w))
  ∧ (∀ s, s ∈ new_stmts_of (store w) ↔
          s ∈ raw_statements (store w)
          ∧ uuid s ∈ distill_stmts (store w)
          ∧ ∀ h, (h, uuid s) ∉ raw_unique_links (store w))
  ∧ let batches := batch_iter (new_stmts_of (store w)) (batch_size self) in
    concat batches = new_stmts_of (store w)
    ∧ raw_unique_links (store w')
      = raw_unique_links (store w) ++ batch_links batches
    ∧ hashes (pa_statements (store w'))
      = hashes (pa_statements (store w)) ∪ hashes (unique_of batches)
    ∧ ∀ batch g m,
        batch ∈ batches →
        g ∈ _get_stmt_matching_groups (map_sequence (map_grounding batch)) →
        m ∈ group_members g →
        (get_hash (make_generic_copy g.2.1), uuid m)
          ∈ raw_unique_links (store w')
        ∧ get_hash (make_generic_copy g.2.1)
          ∈ hashes (pa_statements (store w')).
Proof.
  intros Hn Hrun. split_and!.
  - apply elem_of_new_stmt_ids.
  - apply elem_of_new_stmts.
  - cbv zeta. rewrite supplement_corpus_plan in Hrun.
    apply run_plan_returned in Hrun as (_ & -> & _).
    rewrite store_run_writes, links_apply_writes, pa_apply_writes.
    unfold supplement_plan, supplement_dedup. cbv zeta.
    set (bs := batch_iter (new_stmts_of (store w)) (batch_size self)).
    set (pa := pa_statements (store w)).
    assert (∀ (ws : list (DbWrite Statement)) S b time,
              links_of ((ws ++ [CopySupport S]) ++ [InsertUpdate b time])
              = links_of ws
              ∧ pa_of ((ws ++ [CopySupport S]) ++ [InsertUpdate b time])
                = pa_of ws) as Hws.
    { intros ws S b time. unfold links_of, pa_of. rewrite !bind_app.
      cbn [mbind list_bind]. by rewrite !app_nil_r. }
    destruct (Hws (dedup_plan (hashes pa) ∅ bs).2
                (supplement_links self
                   (pa ++ pa_of (dedup_plan (hashes pa) ∅ bs).2)
                   (dedup_plan (hashes pa) ∅ bs).1 (hashes pa))
                false (clock w)) as [-> ->].
    rewrite dedup_plan_links.
    destruct (dedup_plan_pa (hashes pa) ∅ bs) as (_ & _ & Hh).
    assert (hashes (pa ++ pa_of (dedup_plan (hashes pa) ∅ bs).2)
            = hashes pa ∪ hashes (unique_of bs)) as Hpa.
    { rewrite hashes_app, Hh. apply set_eq. intros h.
      destruct (decide (h ∈ hashes pa)); set_solver. }
    split_and!; [by apply concat_batch_iter|done|done|].
    intros batch g m Hb Hg Hm.
    destruct (group_in_batch batch g Hg) as [Hu Hl].
    split.
    + apply elem_of_app. right. unfold batch_links.
      apply list_elem_of_bind. exists batch. split; [|done].
      apply elem_of_elements. by apply Hl.
    + rewrite Hpa. apply elem_of_union. right. apply elem_of_hashes.
      exists (make_generic_copy g.2.1). split; [|done].
      unfold unique_of. apply list_elem_of_bind. eauto.
Qed.

End Ledger.

Section Invariants.
Context {Statement : Type} `{!Collaborators Statement}.
Implicit Types (w : World Statement) (wr : DbWrite Statement).
Implicit Types (ws : list (DbWrite Statement)) (d : DB Statement).
Implicit Types (self : PreassemblyManager) (t : task).
Implicit Types (s a b : Statement) (l pa : list Statement).
Implicit Types (bs : list (list Statement)).

Lemma pa_of_app ws1 ws2 : pa_of (ws1 ++ ws2) = pa_of ws1 ++ pa_of ws2.
Proof. unfold pa_of. apply bind_app. Qed.

Lemma links_of_app ws1 ws2 : links_of (ws1 ++ ws2) = links_of ws1 ++ links_of ws2.
Proof. unfold links_of. apply bind_app. Qed.

Lemma support_of_app ws1 ws2 :
  support_of (ws1 ++ ws2) = support_of ws1 ++ support_of ws2.
Proof. unfold support_of. apply bind_app. Qed.



Lemma batch_chunks_sublist {A} fuel n (xs b : list A) :
  b ∈ batch_chunks fuel n xs → b `sublist_of` xs.
Proof.
  revert xs. induction fuel as [|fuel IH]; intros xs; cbn.
  - by intros ?%elem_of_nil.
  - destruct xs as [|x xs]; [by intros ?%elem_of_nil|].
    intros [->|Hb]%elem_of_cons.
    + apply sublist_take.
    + etrans; [by apply IH|]. apply sublist_drop.
Qed.

Lemma batch_iter_sublist {A} n (xs b : list A) :
  b ∈ batch_iter xs n → b `sublist_of` xs.
Proof.
  unfold batch_iter. destruct n; [by intros ?%elem_of_nil|].
  apply batch_chunks_sublist.
Qed.

Lemma mjoin_batch_iter {A} (xs : list A) n :
  mjoin (batch_iter xs n) = match n with 0 => [] | _ => xs end.
Proof.
  destruct n; [done|]. rewrite <- concat_mjoin. apply concat_batch_iter. lia.
Qed.

Lemma NoDup_hash_inj l a b :
  NoDup (get_hash <$> l) → a ∈ l → b ∈ l → get_hash a = get_hash b → a = b.
Proof.
  intros Hnd [i Ha]%list_elem_of_lookup_1 [j Hb]%list_elem_of_lookup_1 Heq.
  assert (i = j) as ->; [|congruence].
  eapply NoDup_lookup; [exact Hnd| |].
  - by rewrite list_lookup_fmap, Ha.
  - rewrite list_lookup_fmap, Hb. cbn. by rewrite Heq.
Qed.

Lemma NoDup_hash_sublist l1 l2 :
  l1 `sublist_of` l2 → NoDup (get_hash <$> l2) → NoDup (get_hash <$> l1).
Proof.
  intros Hsub Hnd. eapply sublist_NoDup; [exact Hnd|]. by apply fmap_sublist.
Qed.

Lemma NoDup_hash_app l1 l2 :
  NoDup (get_hash <$> l1) → NoDup (get_hash <$> l2) →
  hashes l1 ## hashes l2 → NoDup (get_hash <$> l1 ++ l2).
Proof.
  intros H1 H2 Hd. rewrite fmap_app. apply NoDup_app. split_and!; [done| |done].
  intros h Hh1 Hh2. apply (Hd h); unfold hashes; by apply elem_of_list_to_set.
Qed.


Lemma elem_of_supplement_links self pa (new_mk_set old_mk_set : gset Z) x y :
  (x, y) ∈ supplement_links self pa new_mk_set old_mk_set ↔
  ∃ npa, npa ∈ batch_iter (filter (λ s, get_hash s ∈ new_mk_set) pa)
                          (batch_size self) ∧
    ((x, y) ∈ support_links_of npa None
     ∨ (∃ dnpa, dnpa ∈ batch_iter
                   (filter (λ s, get_hash s ∈ new_mk_set ∖ hashes npa) pa)
                   (batch_size self)
                ∧ cross_link npa dnpa x y)
     ∨ (∃ opa, opa ∈ batch_iter (filter (λ s, get_hash s ∈ old_mk_set) pa)
                                (batch_size self)
               ∧ cross_link npa opa x y)).
Proof.
  unfold supplement_links. cbv zeta. rewrite elem_of_union_list. split.
  - intros (X & (npa & -> & Hnpa)%list_elem_of_fmap & Hx).
    exists npa. split; [done|].
    rewrite !elem_of_union, !elem_of_union_list in Hx.
    destruct Hx as [[Hx|(Y & (dnpa & -> & Hd)%list_elem_of_fmap & Hx)]
                   |(Y & (opa & -> & Ho)%list_elem_of_fmap & Hx)].
    + by left.
    + right. left. exists dnpa. by rewrite <- elem_of_cross.
    + right. right. exists opa. by rewrite <- elem_of_cross.
  - intros (npa & Hnpa & Hx). eexists. split.
    { apply list_elem_of_fmap. exists npa. split; [reflexivity|done]. }
    rewrite !elem_of_union, !elem_of_union_list.
    destruct Hx as [Hx|[(dnpa & Hd & Hx)|(opa & Ho & Hx)]].
    + left. by left.
    + left. right. eexists. split; [|by apply elem_of_cross].
      apply list_elem_of_fmap. by exists dnpa.
    + right. eexists. split; [|by apply elem_of_cross].
      apply list_elem_of_fmap. by exists opa.
Qed.

Lemma elem_of_batch_filter (P : Statement → Prop) `{!∀ s, Decision (P s)}
    pa n (b : list Statement) a :
  b ∈ batch_iter (filter P pa) n → a ∈ b → P a ∧ a ∈ pa.
Proof.
  intros Hb Ha. apply batch_iter_sublist, sublist_subseteq in Hb.
  apply (list_elem_of_filter P). by apply Hb.
Qed.

(** Every link the loop of [supplement_corpus] finds is a refinement
    between two unique statements of distinct hashes, one of them new. *)
Lemma supplement_links_sound self pa (new_mk_set old_mk_set : gset Z) x y :
  NoDup (get_hash <$> pa) → new_mk_set ## old_mk_set →
  (x, y) ∈ supplement_links self pa new_mk_set old_mk_set →
  ∃ a b, a ∈ pa ∧ b ∈ pa ∧ refinement_of a b = true
         ∧ x = get_hash a ∧ y = get_hash b ∧ x ≠ y
         ∧ ((x ∈ new_mk_set ∧ y ∈ new_mk_set ∪ old_mk_set)
            ∨ (y ∈ new_mk_set ∧ x ∈ new_mk_set ∪ old_mk_set)).
Proof.
  intros Hnd Hdisj (npa & Hnpa & Hx)%elem_of_supplement_links.
  assert (NoDup (get_hash <$> npa)) as Hnd'.
  { eapply NoDup_hash_sublist; [|exact Hnd].
    etrans; [by apply batch_iter_sublist in Hnpa|]. apply sublist_filter. }
  destruct Hx as [Hx|[(dnpa & Hd & Hx)|(opa & Ho & Hx)]].
  - apply elem_of_within_NoDup in Hx as (a & b & Ha & Hb & Hr & -> & -> & Hne);
      [|done].
    destruct (elem_of_batch_filter _ _ _ _ _ Hnpa Ha) as [? ?].
    destruct (elem_of_batch_filter _ _ _ _ _ Hnpa Hb) as [? ?].
    exists a, b. split_and!; try done. left. set_solver.
  - destruct Hx as (a & b & Ha & Hb & Hc).
    destruct (elem_of_batch_filter _ _ _ _ _ Hnpa Ha) as [? ?].
    destruct (elem_of_batch_filter _ _ _ _ _ Hd Hb) as [Hbn ?].
    assert (get_hash a ∈ hashes npa) by (apply elem_of_hashes; eauto).
    apply elem_of_difference in Hbn as [Hbn Hbn'].
    assert (get_hash a ≠ get_hash b) by congruence.
    destruct Hc as [(Hr & -> & ->)|(Hr & -> & ->)].
    + exists a, b. split_and!; try done. left. set_solver.
    + exists b, a. split_and!; try done; try congruence. right. set_solver.
  - destruct Hx as (a & b & Ha & Hb & Hc).
    destruct (elem_of_batch_filter _ _ _ _ _ Hnpa Ha) as [? ?].
    destruct (elem_of_batch_filter _ _ _ _ _ Ho Hb) as [? ?].
    assert (get_hash a ≠ get_hash b) by (intros E; rewrite E in *; set_solver).
    destruct Hc as [(Hr & -> & ->)|(Hr & -> & ->)].
    + exists a, b. split_and!; try done. left. set_solver.
    + exists b, a. split_and!; try done; try congruence. right. set_solver.
Qed.

Lemma elem_of_batch_iter_join {A} (xs : list A) n x :
  0 < n → x ∈ xs → ∃ chunk : list A, chunk ∈ batch_iter xs n ∧ x ∈ chunk.
Proof.
  intros Hn Hx. rewrite <- (concat_batch_iter xs n Hn), concat_mjoin in Hx.
  apply list_elem_of_join in Hx as (chunk & ? & ?). eauto.
Qed.

(** With a positive batch size the loop finds every such link. *)
Lemma supplement_links_complete self pa (new_mk_set old_mk_set : gset Z) a b :
  0 < batch_size self → NoDup (get_hash <$> pa) →
  a ∈ pa → b ∈ pa → refinement_of a b = true → get_hash a ≠ get_hash b →
  (get_hash a ∈ new_mk_set ∧ get_hash b ∈ new_mk_set ∪ old_mk_set)
  ∨ (get_hash b ∈ new_mk_set ∧ get_hash a ∈ new_mk_set ∪ old_mk_set) →
  (get_hash a, get_hash b) ∈ supplement_links self pa new_mk_set old_mk_set.
Proof.
  intros Hn Hnd Ha Hb Hr Hne Hcase. apply elem_of_supplement_links.
  (* [c] is a new statement among the two, [o] the other one *)
  assert (∃ c o, c ∈ pa ∧ o ∈ pa ∧ get_hash c ∈ new_mk_set
                 ∧ get_hash o ∈ new_mk_set ∪ old_mk_set
                 ∧ get_hash c ≠ get_hash o
                 ∧ ((c = a ∧ o = b) ∨ (c = b ∧ o = a)))
    as (c & o & Hc & Ho & Hcn & Hon & Hco & Hab).
  { destruct Hcase as [[? ?]|[? ?]]; [exists a, b|exists b, a];
      split_and!; try done; auto. }
  destruct (elem_of_batch_iter_join
              (filter (λ s, get_hash s ∈ new_mk_set) pa) (batch_size self) c Hn)
    as (npa & Hnpa & Hcnpa).
  { by apply list_elem_of_filter. }
  exists npa. split; [done|].
  assert (NoDup (get_hash <$> npa)) as Hnd'.
  { eapply NoDup_hash_sublist; [|exact Hnd].
    etrans; [by apply batch_iter_sublist in Hnpa|]. apply sublist_filter. }
  assert (∀ l', o ∈ l' → cross_link npa l' (get_hash a) (get_hash b)) as Hcross.
  { intros l' Ho'. exists c, o. split_and!; try done.
    destruct Hab as [[-> ->]|[-> ->]]; [left|right]; done. }
  destruct (decide (get_hash o ∈ hashes npa)) as [Hin|Hnin].
  - (* the other one is in the same batch *)
    left. apply elem_of_hashes in Hin as (o' & Ho' & Heq).
    assert (o' = o) as ->.
    { eapply NoDup_hash_inj; [exact Hnd| |done|done].
      by destruct (elem_of_batch_filter _ _ _ _ _ Hnpa Ho'). }
    apply elem_of_within_NoDup; [done|]. exists a, b.
    destruct Hab as [[-> ->]|[-> ->]]; split_and!; done.
  - right. apply elem_of_union in Hon as [Hon|Hon].
    + left.
      destruct (elem_of_batch_iter_join
                  (filter (λ s, get_hash s ∈ new_mk_set ∖ hashes npa) pa)
                  (batch_size self) o Hn) as (dnpa & Hd & Hod).
      { apply list_elem_of_filter. split; [set_solver|done]. }
      exists dnpa. split; [done|]. by apply Hcross.
    + right.
      destruct (elem_of_batch_iter_join
                  (filter (λ s, get_hash s ∈ old_mk_set) pa)
                  (batch_size self) o Hn) as (opa & Hop & Hoo).
      { by apply list_elem_of_filter. }
      exists opa. split; [done|]. by apply Hcross.
Qed.

End Invariants.

Section Restart.
Context {Statement : Type} `{!Collaborators Statement}.
Implicit Types (w : World Statement) (wr : DbWrite Statement).
Implicit Types (ws : list (DbWrite Statement)) (d : DB Statement).
Implicit Types (self : PreassemblyManager) (t : task).
Implicit Types (s a b : Statement) (l pa : list Statement).
Implicit Types (bs : list (list Statement)) (mk_done : gset Z).

Lemma elem_of_unique_of bs s :
  s ∈ unique_of bs ↔ ∃ batch, batch ∈ bs ∧ s ∈ (_make_unique_statement_set batch).1.
Proof. unfold unique_of. rewrite list_elem_of_bind. naive_solver. Qed.

Lemma elem_of_batch_links bs (hu : Z * string) :
  hu ∈ batch_links bs ↔ ∃ batch, batch ∈ bs ∧ hu ∈ (_make_unique_statement_set batch).2.
Proof.
  unfold batch_links. rewrite list_elem_of_bind.
  setoid_rewrite elem_of_elements. naive_solver.
Qed.

(** Every unique statement of a batch has an evidence link of the batch. *)
Lemma unique_linked bs :
  hashes (unique_of bs) ⊆ list_to_set (batch_links bs).*1.
Proof.
  intros h (s & (batch & Hb & Hs)%elem_of_unique_of & <-)%elem_of_hashes.
  rewrite make_unique_fst in Hs.
  apply list_elem_of_fmap in Hs as (g & -> & Hg).
  apply elem_of_list_to_set, list_elem_of_fmap.
  exists (get_hash (make_generic_copy g.2.1), uuid g.2.1). split; [done|].
  apply elem_of_batch_links. exists batch. split; [done|].
  apply group_in_batch; [done|]. unfold group_members. set_solver.
Qed.


(** The writes of a deduplication keep the unique statements distinct
    and linked, when it starts from a done set that covers them. *)
Lemma dedup_writes_linked mk_done bs pa (links : list (Z * string)) :
  NoDup (get_hash <$> pa) → hashes pa ⊆ mk_done →
  NoDup (get_hash <$> pa ++ pa_of (dedup_plan mk_done ∅ bs).2)
  ∧ (hashes pa ⊆ list_to_set links.*1 →
     hashes (pa ++ pa_of (dedup_plan mk_done ∅ bs).2)
     ⊆ list_to_set (links ++ links_of (dedup_plan mk_done ∅ bs).2).*1).
Proof.
  intros Hnd Hdone.
  destruct (dedup_plan_pa mk_done ∅ bs) as (Hnd' & Hsub & Hh).
  split.
  - apply NoDup_hash_app; [done|done|]. rewrite Hh. set_solver.
  - intros Hl. rewrite hashes_app, dedup_plan_links, fmap_app, list_to_set_app_L.
    pose proof (unique_linked bs). rewrite Hh. set_solver.
Qed.

Lemma ready_done self c d ids mk_done :
  ready (Create c) d → create_inputs c d = Some (ids, mk_done) →
  NoDup (get_hash <$> pa_statements d) ∧ hashes (pa_statements d) ⊆ mk_done
  ∧ hashes (pa_statements d) ⊆ list_to_set (raw_unique_links d).*1.
Proof.
  unfold create_inputs. cbv zeta. destruct c; cbn [ready].
  - intros [Hnd Hl]. destruct (raw_unique_links d) eqn:E; [done|].
    intros [= <- <-]. done.
  - intros -> [= <- <-]. cbn. split_and!; [constructor|done|done].
Qed.

(** The writes of the deduplication phase of [create_corpus] are those of
    a batch loop. *)
Lemma create_dedup_writes_plan self ids mk_done d :
  ∃ bs, create_dedup_writes self ids mk_done d = (dedup_plan mk_done ∅ bs).2.
Proof.
  unfold create_dedup_writes. case_decide; [eauto|]. by exists [].
Qed.



End Restart.

Section RestartClaims.
Context {Statement : Type} `{!Collaborators Statement}.
Implicit Types (w : World Statement) (wr : DbWrite Statement).
Implicit Types (ws : list (DbWrite Statement)) (d : DB Statement).
Implicit Types (self : PreassemblyManager) (t : task).




End RestartClaims.

(** ** What the deduplication needs of its collaborators *)
Section Homomorphisms.
Context {Statement : Type} `{!Collaborators Statement}.
Implicit Types (w : World Statement) (s m a b : Statement).
Implicit Types (l stmts : list Statement) (bs : list (list Statement)).

Lemma hom_bind (f : list Statement → list Statement) :
  (∀ l1 l2, f (l1 ++ l2) ≡ₚ f l1 ++ f l2) → ∀ l, f l ≡ₚ l ≫= λ a, f [a].
Proof.
  intros Hf. assert (f [] = []) as Hnil.
  { pose proof (Hf [] []) as Hp. apply Permutation_length in Hp.
    rewrite length_app in Hp. cbn in Hp. apply nil_length_inv. lia. }
  induction l as [|a l IH]; [by rewrite Hnil|].
  change (a :: l) with ([a] ++ l) at 1. rewrite Hf, IH. done.
Qed.

Lemma hom_perm (f : list Statement → list Statement) l l' :
  (∀ l1 l2, f (l1 ++ l2) ≡ₚ f l1 ++ f l2) → l ≡ₚ l' → f l ≡ₚ f l'.
Proof.
  intros Hf Hl. rewrite (hom_bind f Hf l), (hom_bind f Hf l'). by rewrite Hl.
Qed.

Lemma elem_of_evidence l h u :
  (h, u) ∈ evidence l ↔ ∃ m, m ∈ l ∧ h = get_hash m ∧ u = uuid m.
Proof.
  unfold evidence. rewrite elem_of_list_to_set, list_elem_of_fmap. naive_solver.
Qed.

Lemma hashes_perm l l' : l ≡ₚ l' → hashes l = hashes l'.
Proof.
  intros Hl. apply set_eq. intros h. rewrite !elem_of_hashes.
  by setoid_rewrite Hl.
Qed.

Lemma evidence_perm l l' : l ≡ₚ l' → evidence l = evidence l'.
Proof.
  intros Hl. apply set_eq. intros [h u]. rewrite !elem_of_evidence.
  by setoid_rewrite Hl.
Qed.

End Homomorphisms.

Section HashContracts.
Context {Statement : Type} `{!Collaborators Statement}.
Implicit Types (w : World Statement) (s m a b : Statement).
Implicit Types (l stmts : list Statement) (bs : list (list Statement)).

(** The matches key is finer than the hash. *)
Hypothesis hash_of_key :
  ∀ a b, matches_key a = matches_key b → get_hash a = get_hash b.
(** The generic copy of a statement has the hash of the statement. *)
Hypothesis generic_copy_hash :
  ∀ s, get_hash (make_generic_copy s) = get_hash s.

(** The hashes of the unique statements of a batch are the hashes of its
    normalised statements. *)
Lemma unique_hashes stmts :
  hashes (_make_unique_statement_set stmts).1 = hashes (normalize stmts).
Proof.
  rewrite make_unique_fst. apply set_eq. intros h. rewrite !elem_of_hashes.
  split.
  - intros (s & (g & -> & Hg)%list_elem_of_fmap & <-).
    exists g.2.1. rewrite generic_copy_hash. split; [|done].
    apply elem_of_groups. exists g. split; [done|].
    unfold group_members. set_solver.
  - intros (m & (g & Hg & Hm)%elem_of_groups & <-).
    exists (make_generic_copy g.2.1). split.
    + apply list_elem_of_fmap. eauto.
    + rewrite generic_copy_hash. apply hash_of_key.
      pose proof (groups_ok (normalize stmts)) as Hok.
      rewrite Forall_forall in Hok. specialize (Hok g Hg).
      rewrite (Hok m Hm). apply Hok. unfold group_members. set_solver.
Qed.

(** The evidence links of a batch link each normalised statement to its
    own hash. *)
Lemma unique_links stmts :
  (_make_unique_statement_set stmts).2 = evidence (normalize stmts).
Proof.
  rewrite make_unique_snd. apply set_eq. intros [h u].
  unfold evidence. rewrite !elem_of_list_to_set, list_elem_of_bind.
  rewrite list_elem_of_fmap.
  pose proof (groups_ok (normalize stmts)) as Hok. rewrite Forall_forall in Hok.
  assert (∀ g m, g ∈ _get_stmt_matching_groups (normalize stmts) →
            m ∈ group_members g →
            get_hash (make_generic_copy g.2.1) = get_hash m) as Hgm.
  { intros g m Hg Hm. rewrite generic_copy_hash. apply hash_of_key.
    rewrite (Hok g Hg m Hm). apply (Hok g Hg). unfold group_members. set_solver. }
  split.
  - intros (g & (m & [= -> ->] & Hm)%list_elem_of_fmap & Hg).
    exists m. split; [by rewrite (Hgm g m)|]. apply elem_of_groups. eauto.
  - intros (m & [= -> ->] & (g & Hg & Hm)%elem_of_groups).
    exists g. split; [|done]. unfold group_links. apply list_elem_of_fmap.
    exists m. split; [|done]. by rewrite (Hgm g m).
Qed.

End HashContracts.

Section NormalizeContracts.
Context {Statement : Type} `{!Collaborators Statement}.
Implicit Types (w : World Statement) (s m a b : Statement).
Implicit Types (l stmts : list Statement) (bs : list (list Statement)).

(** Grounding and sequence mapping treat the statements one by one. *)
Hypothesis map_grounding_app :
  ∀ l1 l2, map_grounding (l1 ++ l2) ≡ₚ map_grounding l1 ++ map_grounding l2.
Hypothesis map_sequence_app :
  ∀ l1 l2, map_sequence (l1 ++ l2) ≡ₚ map_sequence l1 ++ map_sequence l2.

Lemma normalize_app l1 l2 : normalize (l1 ++ l2) ≡ₚ normalize l1 ++ normalize l2.
Proof.
  unfold normalize. rewrite <- map_sequence_app.
  apply (hom_perm map_sequence); [done|]. apply map_grounding_app.
Qed.


Lemma normalize_bind l : normalize l ≡ₚ l ≫= λ a, normalize [a].
Proof.
  apply (hom_bind normalize). apply normalize_app.
Qed.

Lemma normalize_perm l l' : l ≡ₚ l' → normalize l ≡ₚ normalize l'.
Proof.
  apply (hom_perm normalize). apply normalize_app.
Qed.

Lemma elem_of_normalize l m :
  m ∈ normalize l ↔ ∃ s, s ∈ l ∧ m ∈ normalize [s].
Proof.
  rewrite (normalize_bind l), list_elem_of_bind. naive_solver.
Qed.

Lemma elem_of_normalize_join bs m :
  m ∈ normalize (mjoin bs) ↔ ∃ batch, batch ∈ bs ∧ m ∈ normalize batch.
Proof.
  rewrite elem_of_normalize. split.
  - intros (s & (batch & Hs & Hb)%list_elem_of_join & Hm).
    exists batch. split; [done|]. apply elem_of_normalize. eauto.
  - intros (batch & Hb & (s & Hs & Hm)%elem_of_normalize).
    exists s. split; [|done]. apply list_elem_of_join. eauto.
Qed.

End NormalizeContracts.

Section Contracts.
Context {Statement : Type} `{!Collaborators Statement}.
Implicit Types (w : World Statement) (s m a b : Statement).
Implicit Types (l stmts : list Statement) (bs : list (list Statement)).

Hypothesis hash_of_key :
  ∀ a b, matches_key a = matches_key b → get_hash a = get_hash b.
Hypothesis generic_copy_hash :
  ∀ s, get_hash (make_generic_copy s) = get_hash s.
Hypothesis map_grounding_app :
  ∀ l1 l2, map_grounding (l1 ++ l2) ≡ₚ map_grounding l1 ++ map_grounding l2.
Hypothesis map_sequence_app :
  ∀ l1 l2, map_sequence (l1 ++ l2) ≡ₚ map_sequence l1 ++ map_sequence l2.

Lemma norm_join bs m :
  m ∈ normalize (mjoin bs) ↔ ∃ batch, batch ∈ bs ∧ m ∈ normalize batch.
Proof. by apply elem_of_normalize_join. Qed.

Lemma hashes_unique_of bs :
  hashes (unique_of bs) = hashes (normalize (mjoin bs)).
Proof.
  apply set_eq. intros h. rewrite !elem_of_hashes. split.
  - intros (s & (batch & Hb & Hs)%elem_of_unique_of & <-).
    assert (get_hash s ∈ hashes (_make_unique_statement_set batch).1) as Hin
      by (apply elem_of_hashes; eauto).
    rewrite (unique_hashes hash_of_key generic_copy_hash) in Hin. apply elem_of_hashes in Hin as (m & Hm & <-).
    exists m. split; [|done]. apply norm_join. eauto.
  - intros (m & (batch & Hb & Hm)%norm_join & <-).
    assert (get_hash m ∈ hashes (normalize batch)) as Hin
      by (apply elem_of_hashes; eauto).
    rewrite <- (unique_hashes hash_of_key generic_copy_hash) in Hin. apply elem_of_hashes in Hin as (s & Hs & <-).
    exists s. split; [|done]. apply elem_of_unique_of. eauto.
Qed.

Lemma links_batch_links bs :
  list_to_set (batch_links bs) = evidence (normalize (mjoin bs)).
Proof.
  apply set_eq. intros [h u].
  rewrite elem_of_list_to_set, elem_of_batch_links, elem_of_evidence. split.
  - intros (batch & Hb & Hin). rewrite (unique_links hash_of_key generic_copy_hash) in Hin.
    apply elem_of_evidence in Hin as (m & Hm & -> & ->).
    exists m. split; [|done]. apply norm_join. eauto.
  - intros (m & (batch & Hb & Hm)%norm_join & -> & ->).
    exists batch. split; [done|]. rewrite (unique_links hash_of_key generic_copy_hash).
    apply elem_of_evidence. eauto.
Qed.

(** What a batch loop without faults leaves, whatever the chunking. *)
Lemma dedup_batches_result (mk_done : gset Z) bs w :
  faults w = None →
  ∃ w', dedup_batches mk_done ∅ bs w
        = (Returned (hashes (normalize (mjoin bs)) ∖ mk_done), w')
    ∧ hashes (pa_statements (store w'))
      = hashes (pa_statements (store w))
        ∪ (hashes (normalize (mjoin bs)) ∖ mk_done)
    ∧ list_to_set (raw_unique_links (store w'))
      = list_to_set (raw_unique_links (store w))
        ∪ evidence (normalize (mjoin bs)).
Proof.
  intros Hf. rewrite dedup_batches_plan, run_plan_None by done.
  eexists. split_and!.
  - f_equal. f_equal. rewrite dedup_plan_new, hashes_unique_of. set_solver.
  - rewrite store_run_writes, pa_apply_writes, hashes_app.
    destruct (dedup_plan_pa mk_done ∅ bs) as (_ & _ & ->).
    rewrite hashes_unique_of. f_equal. set_solver.
  - rewrite store_run_writes, links_apply_writes, list_to_set_app_L.
    by rewrite dedup_plan_links, links_batch_links.
Qed.

(** C3: two chunkings of the same statements, fed through the batch loop
    from the same store with the same done set, return the same new
    hashes and leave the same set of unique-statement hashes and the same
    set of evidence links; in particular for the chunkings
    [_get_unique_statements] makes with two batch sizes. *)
Theorem dedup_batch_invariance (mk_done : gset Z) w :
  faults w = None →
  (∀ bs1 bs2, concat bs1 ≡ₚ concat bs2 →
     ∃ new w1 w2,
       dedup_batches mk_done ∅ bs1 w = (Returned new, w1)
       ∧ dedup_batches mk_done ∅ bs2 w = (Returned new, w2)
       ∧ hashes (pa_statements (store w1)) = hashes (pa_statements (store w2))
       ∧ list_to_set (raw_unique_links (store w1))
         =@{gset (Z * string)} list_to_set (raw_unique_links (store w2)))
  ∧ (∀ (self1 self2 : PreassemblyManager) stmts n1 n2,
       0 < batch_size self1 → 0 < batch_size self2 →
       ∃ new w1 w2,
         _get_unique_statements self1 stmts n1 (Some mk_done) w = (Returned new, w1)
         ∧ _get_unique_statements self2 stmts n2 (Some mk_done) w
           = (Returned new, w2)
         ∧ hashes (pa_statements (store w1)) = hashes (pa_statements (store w2))
         ∧ list_to_set (raw_unique_links (store w1))
           =@{gset (Z * string)} list_to_set (raw_unique_links (store w2))).
Proof.
  intros Hf.
  assert (∀ bs1 bs2, concat bs1 ≡ₚ concat bs2 →
     ∃ new w1 w2,
       dedup_batches mk_done ∅ bs1 w = (Returned new, w1)
       ∧ dedup_batches mk_done ∅ bs2 w = (Returned new, w2)
       ∧ hashes (pa_statements (store w1)) = hashes (pa_statements (store w2))
       ∧ list_to_set (raw_unique_links (store w1))
         =@{gset (Z * string)} list_to_set (raw_unique_links (store w2))) as Hgen.
  { intros bs1 bs2 Hperm. rewrite !concat_mjoin in Hperm.
    destruct (dedup_batches_result mk_done bs1 w Hf) as (w1 & H1 & Hp1 & Hl1).
    destruct (dedup_batches_result mk_done bs2 w Hf) as (w2 & H2 & Hp2 & Hl2).
    pose proof (hashes_perm _ _ (normalize_perm map_grounding_app map_sequence_app _ _ Hperm)) as Hh.
    pose proof (evidence_perm _ _ (normalize_perm map_grounding_app map_sequence_app _ _ Hperm)) as He.
    exists (hashes (normalize (mjoin bs1)) ∖ mk_done), w1, w2.
    split_and!; [done|by rewrite Hh|by rewrite Hp1, Hp2, Hh
                |by rewrite Hl1, Hl2, He]. }
  split; [exact Hgen|].
  intros self1 self2 stmts n1 n2 Hb1 Hb2. unfold _get_unique_statements.
  cbv zeta. cbn [default]. apply Hgen.
  by rewrite !concat_batch_iter.
Qed.

End Contracts.

Section Incremental.
Context {Statement : Type} `{!Collaborators Statement}.
Implicit Types (w : World Statement) (s m a b : Statement).
Implicit Types (l stmts pa : list Statement) (bs : list (list Statement)).
Implicit Types (self : PreassemblyManager) (d : DB Statement).

Hypothesis hash_of_key :
  ∀ a b, matches_key a = matches_key b → get_hash a = get_hash b.
Hypothesis generic_copy_hash :
  ∀ s, get_hash (make_generic_copy s) = get_hash s.
Hypothesis map_grounding_app :
  ∀ l1 l2, map_grounding (l1 ++ l2) ≡ₚ map_grounding l1 ++ map_grounding l2.
Hypothesis map_sequence_app :
  ∀ l1 l2, map_sequence (l1 ++ l2) ≡ₚ map_sequence l1 ++ map_sequence l2.





End Incremental.

Section IncrementalLemmas.
Context {Statement : Type} `{!Collaborators Statement}.
Implicit Types (w : World Statement) (s m a b : Statement).
Implicit Types (l stmts pa : list Statement) (bs : list (list Statement)).
Implicit Types (self : PreassemblyManager) (d : DB Statement).




End IncrementalLemmas.

Section IncrementalEquivalence.
Context {Statement : Type} `{!Collaborators Statement}.
Implicit Types (w : World Statement) (s m a b : Statement).
Implicit Types (l stmts pa : list Statement) (bs : list (list Statement)).
Implicit Types (self : PreassemblyManager) (d : DB Statement).

Hypothesis hash_of_key :
  ∀ a b, matches_key a = matches_key b → get_hash a = get_hash b.
Hypothesis generic_copy_hash :
  ∀ s, get_hash (make_generic_copy s) = get_hash s.
Hypothesis map_grounding_app :
  ∀ l1 l2, map_grounding (l1 ++ l2) ≡ₚ map_grounding l1 ++ map_grounding l2.
Hypothesis map_sequence_app :
  ∀ l1 l2, map_sequence (l1 ++ l2) ≡ₚ map_sequence l1 ++ map_sequence l2.
(** Normalising a statement keeps its uuid. *)
Hypothesis normalize_uuid :
  ∀ s m, m ∈ normalize [s] → uuid m = uuid s.
(** Whether a unique statement refines another depends on their hashes. *)
Hypothesis refinement_hash :
  ∀ a a' b b', get_hash a = get_hash a' → get_hash b = get_hash b' →
               refinement_of a b = refinement_of a' b'.
(** Distilling does not change its mind about a raw statement when raw
    statements are added after it, or when the other tables change. *)
Hypothesis distill_stable :
  ∀ d d', raw_statements d `prefix_of` raw_statements d' →
          ∀ s, s ∈ raw_statements d →
               (uuid s ∈ distill_stmts d ↔ uuid s ∈ distill_stmts d').



End IncrementalEquivalence.

(** ** Further properties of the deduplication *)
Section DedupMore.
Context {Statement : Type} `{!Collaborators Statement}.
Implicit Types (w : World Statement) (s m : Statement).
Implicit Types (l stmts : list Statement).

Lemma NoDup_fmap_join_unique {A B} (f : A → B) (ls : list (list A))
    (la lb : list A) (x1 x2 : A) :
  NoDup (f <$> mjoin ls) → la ∈ ls → lb ∈ ls → x1 ∈ la → x2 ∈ lb →
  f x1 = f x2 → la = lb.
Proof.
  induction ls as [|l0 ls IH]; intros Hnd H1 H2 Hx1 Hx2 Hf.
  { by apply elem_of_nil in H1. }
  cbn in Hnd. rewrite fmap_app in Hnd.
  apply NoDup_app in Hnd as (_ & Hdis & Hnd).
  assert (Hin : ∀ (lc : list A) x, lc ∈ ls → x ∈ lc → f x ∈ f <$> mjoin ls).
  { intros lc x Hl Hx. apply list_elem_of_fmap. exists x. split; [done|].
    apply list_elem_of_join. eauto. }
  apply elem_of_cons in H1 as [->|H1]; apply elem_of_cons in H2 as [->|H2].
  - done.
  - exfalso. apply (Hdis (f x1)).
    + apply list_elem_of_fmap; eauto.
    + rewrite Hf. eauto.
  - exfalso. apply (Hdis (f x2)).
    + apply list_elem_of_fmap; eauto.
    + rewrite <- Hf. eauto.
  - eauto.
Qed.

Lemma elem_of_unique_links stmts h u :
  (h, u) ∈ (_make_unique_statement_set stmts).2 ↔
  ∃ g m, g ∈ _get_stmt_matching_groups (normalize stmts)
         ∧ m ∈ group_members g
         ∧ h = get_hash (make_generic_copy g.2.1) ∧ u = uuid m.
Proof.
  rewrite make_unique_snd, elem_of_list_to_set, list_elem_of_bind.
  split.
  - intros (g & Hhu & Hg). unfold group_links in Hhu.
    apply list_elem_of_fmap in Hhu as (m & Heq & Hm).
    inversion Heq; subst. eauto 10.
  - intros (g & m & Hg & Hm & -> & ->). exists g. split; [|done].
    unfold group_links. apply list_elem_of_fmap. eauto.
Qed.

(** X1.  [flatten_evidence_dict] returns the pair of a key and a uuid
    exactly when the dictionary maps the key to a set that holds the
    uuid; the result is empty exactly when every set of the dictionary
    is empty. *)
Theorem flatten_evidence_dict_pairs (ev_dict : gmap Z (gset string)) :
  (∀ k u, (k, u) ∈ flatten_evidence_dict ev_dict
          ↔ ∃ S, ev_dict !! k = Some S ∧ u ∈ S)
  ∧ (flatten_evidence_dict ev_dict = ∅
     ↔ ∀ k S, ev_dict !! k = Some S → S = ∅).
Proof.
  split; [intros; apply elem_of_flatten|].
  split.
  - intros He k S Hk. apply set_eq. intros u. split; [|set_solver].
    intros Hu. assert ((k, u) ∈ flatten_evidence_dict ev_dict) as Hin.
    { apply elem_of_flatten. eauto. }
    rewrite He in Hin. set_solver.
  - intros Hall. apply set_eq. intros [k u]. split; [|set_solver].
    intros (S & Hk & Hu)%elem_of_flatten.
    apply Hall in Hk. subst. set_solver.
Qed.

(** X2.  In the result of [_make_unique_statement_set] the hashes the
    evidence links point to are exactly the hashes of the unique
    statements returned: every unique statement has a link, and no link
    points to a statement that is not returned. *)
Theorem unique_statements_are_link_targets stmts h :
  h ∈ hashes (_make_unique_statement_set stmts).1
  ↔ ∃ u, (h, u) ∈ (_make_unique_statement_set stmts).2.
Proof.
  rewrite elem_of_hashes. setoid_rewrite elem_of_unique_links.
  rewrite make_unique_fst. split.
  - intros (s & Hs & <-). apply list_elem_of_fmap in Hs as (g & -> & Hg).
    exists (uuid g.2.1), g, g.2.1. split_and!; try done.
    unfold group_members. apply elem_of_cons. by left.
  - intros (u & g & m & Hg & Hm & -> & ->).
    exists (make_generic_copy g.2.1). split; [|done].
    apply list_elem_of_fmap. eauto.
Qed.

(** X3.  The uuids the evidence links of [_make_unique_statement_set]
    mention are exactly the uuids of the statements after grounding and
    sequence mapping: each of them is linked, and nothing else is. *)
Theorem evidence_links_cover_mapped_statements stmts u :
  (∃ h, (h, u) ∈ (_make_unique_statement_set stmts).2)
  ↔ u ∈ uuid <$> map_sequence (map_grounding stmts).
Proof.
  setoid_rewrite elem_of_unique_links. rewrite list_elem_of_fmap.
  change (map_sequence (map_grounding stmts)) with (normalize stmts).
  split.
  - intros (h & g & m & Hg & Hm & -> & ->). exists m. split; [done|].
    apply elem_of_groups. eauto.
  - intros (m & -> & Hm). apply elem_of_groups in Hm as (g & Hg & Hm).
    eauto 10.
Qed.

(** X4.  When the statements after grounding and sequence mapping have
    distinct uuids, [_make_unique_statement_set] links each uuid to one
    hash only. *)
Theorem evidence_links_functional stmts u h1 h2 :
  NoDup (uuid <$> map_sequence (map_grounding stmts)) →
  (h1, u) ∈ (_make_unique_statement_set stmts).2 →
  (h2, u) ∈ (_make_unique_statement_set stmts).2 →
  h1 = h2.
Proof.
  change (map_sequence (map_grounding stmts)) with (normalize stmts).
  intros Hnd (g1 & m1 & Hg1 & Hm1 & -> & Hu1)%elem_of_unique_links
         (g2 & m2 & Hg2 & Hm2 & -> & Hu2)%elem_of_unique_links.
  assert (Hnd' : NoDup (uuid <$> mjoin (group_members
                    <$> _get_stmt_matching_groups (normalize stmts)))).
  { rewrite <- concat_mjoin. by rewrite groups_members. }
  assert (group_members g1 = group_members g2) as Heq.
  { eapply (NoDup_fmap_join_unique uuid); [exact Hnd'| | |exact Hm1|exact Hm2|].
    - apply list_elem_of_fmap; eauto.
    - apply list_elem_of_fmap; eauto.
    - congruence. }
  unfold group_members in Heq. by inversion Heq as [[Hhd Htl]]; rewrite Hhd.
Qed.

(** X5.  A pass of [_get_unique_statements] that returns has appended to
    the table of unique statements a list of statements of pairwise
    distinct hashes; the set it returns is the set of their hashes, and
    none of them is in [mk_done]. *)
Theorem get_unique_statements_returns_inserted (self : PreassemblyManager)
    stmts (num_stmts : nat) (mk_done : option (gset Z)) w new_mk_set w' :
  _get_unique_statements self stmts num_stmts mk_done w
    = (Returned new_mk_set, w') →
  ∃ inserted,
    pa_statements (store w') = pa_statements (store w) ++ inserted
    ∧ NoDup (get_hash <$> inserted)
    ∧ new_mk_set = hashes inserted
    ∧ new_mk_set ## default ∅ mk_done.
Proof.
  rewrite get_unique_statements_plan. intros (-> & -> & _)%run_plan_returned.
  set (done := default ∅ mk_done).
  set (bs := batch_iter stmts (batch_size self)).
  destruct (dedup_plan_pa done ∅ bs) as (Hnd & _ & Hh).
  exists (pa_of (dedup_plan done ∅ bs).2).
  rewrite store_run_writes, pa_apply_writes, dedup_plan_new, Hh.
  split_and!; [done|done| |].
  - apply set_eq. intros x. set_solver.
  - set_solver.
Qed.

End DedupMore.

(** ** The batches of unique statements and the latest update *)
Section Readers.
Context {Statement : Type} `{!Collaborators Statement}.
Implicit Types (w : World Statement) (d : DB Statement).
Implicit Types (self : PreassemblyManager).

Lemma batch_chunks_length {A} fuel n (xs : list A) :
  0 < n → Forall (λ chunk : list A, 0 < length chunk ≤ n) (batch_chunks fuel n xs).
Proof.
  intros Hn. revert xs. induction fuel as [|fuel IH]; intros xs; cbn.
  { destruct xs; constructor. }
  destruct xs as [|x xs]; [constructor|].
  constructor; [|apply IH].
  rewrite length_take. cbn [length]. lia.
Qed.

Lemma batch_iter_length {A} n (xs : list A) :
  Forall (λ chunk : list A, 0 < length chunk ≤ n) (batch_iter xs n).
Proof.
  unfold batch_iter. destruct n; [constructor|].
  apply batch_chunks_length. lia.
Qed.

Lemma batch_iter_nil {A} n : batch_iter (@nil A) n = [].
Proof. by destruct n. Qed.

Lemma latest_updatetime_app d ws b now :
  (∀ b' t', (b', t') ∈ preassembly_updates d → t' ≤ now) →
  updates_of ws = [(b, now)] →
  _get_latest_updatetime (apply_writes ws d) = Some now.
Proof.
  intros Hle Hup. unfold _get_latest_updatetime.
  rewrite updates_apply_writes, Hup.
  destruct (preassembly_updates d ++ [(b, now)]) as [|r rs] eqn:E.
  { by destruct (preassembly_updates d). }
  rewrite <- E. f_equal. rewrite fmap_app. cbn.
  assert (max_list (preassembly_updates d).*2 ≤ now) as Hmax.
  { clear E. induction (preassembly_updates d) as [|[b' t'] us IH]; cbn; [lia|].
    apply Nat.max_lub.
    - apply (Hle b'). apply elem_of_cons. by left.
    - apply IH. intros b'' t'' Hin. apply (Hle b''). apply elem_of_cons. by right. }
  clear E. revert Hmax.
  induction (preassembly_updates d).*2 as [|u us IH]; cbn; [lia|].
  intros Hmax. rewrite IH by lia. lia.
Qed.

(** X6.  With a positive batch size [_pa_batch_iter] returns batches that
    are never empty and never longer than the batch size; one after the
    other they are the table of unique statements, or its rows whose
    hash is in [mk_set], in the order of the table.  The store is not
    changed. *)
Theorem pa_batch_iter_batches self (mk_set : option (gset Z)) w :
  0 < batch_size self →
  ∃ batches,
    _pa_batch_iter self mk_set w = (Returned batches, w)
    ∧ concat batches
      = match mk_set with
        | None => pa_statements (store w)
        | Some mk_set =>
            filter (λ s, get_hash s ∈ mk_set) (pa_statements (store w))
        end
    ∧ Forall (λ batch, 0 < length batch ≤ batch_size self) batches.
Proof.
  intros Hn. eexists. split; [apply pa_batch_iter_run|]. split.
  - by apply concat_batch_iter.
  - apply batch_iter_length.
Qed.

(** X7.  [_get_latest_updatetime] returns [None] exactly when the ledger
    is empty; otherwise it returns the time of one of the records, and no
    record has a later time. *)
Theorem latest_updatetime_is_maximum d :
  (_get_latest_updatetime d = None ↔ preassembly_updates d = [])
  ∧ ∀ t, _get_latest_updatetime d = Some t →
      (∃ b, (b, t) ∈ preassembly_updates d)
      ∧ ∀ b' t', (b', t') ∈ preassembly_updates d → t' ≤ t.
Proof.
  unfold _get_latest_updatetime.
  destruct (preassembly_updates d) as [|r rs] eqn:E; [by split|].
  rewrite <- E. split; [split; [done|]; by rewrite E|].
  intros t [= <-]. split.
  - assert (max_list (preassembly_updates d).*2 ∈ (preassembly_updates d).*2)
      as Hin.
    { apply max_list_elem_of. by rewrite E. }
    apply list_elem_of_fmap in Hin as ([b t] & Heq & Hin).
    exists b. cbn in Heq. by rewrite Heq.
  - intros b' t' Hin. apply max_list_elem_of_le.
    apply list_elem_of_fmap. by exists (b', t').
Qed.

(** X8.  On a store whose ledger holds no time later than the clock, a
    run that completes makes its own start time the latest update time,
    and the ledger still holds no time later than the clock; a run that
    raises leaves the latest update time as it was. *)
Theorem latest_updatetime_after_run self (t : task) w :
  (∀ b' t', (b', t') ∈ preassembly_updates (store w) → t' ≤ clock w) →
  let r := run_task self t w in
  (r.1 = Returned true →
     _get_latest_updatetime (store r.2) = Some (clock w)
     ∧ ∀ b' t', (b', t') ∈ preassembly_updates (store r.2) → t' ≤ clock r.2)
  ∧ (∀ e, r.1 = Raised e →
       _get_latest_updatetime (store r.2) = _get_latest_updatetime (store w)).
Proof.
  intros Hle r. subst r. rewrite run_task_plan.
  destruct (body_plan self t (store w)) as [ws|] eqn:Hplan; [|split; done].
  pose proof (body_plan_no_update _ _ _ _ Hplan) as Hno.
  apply updates_of_none in Hno.
  rewrite run_plan_spec. cbn [fst snd].
  set (all := ws ++ [InsertUpdate (is_create t) (clock w)]).
  split.
  - destruct (completes (faults w) (length all)) eqn:Hc; [|done]. intros _.
    apply bool_decide_eq_true in Hc. rewrite Hc, firstn_all.
    rewrite store_run_writes, clock_run_writes.
    assert (updates_of all = [(is_create t, clock w)]) as Hup.
    { unfold all. by rewrite updates_of_app, Hno. }
    split; [by eapply latest_updatetime_app|].
    intros b' t'. rewrite updates_apply_writes, Hup, elem_of_app.
    intros [Hin|Hin].
    + apply Hle in Hin. lia.
    + apply list_elem_of_singleton in Hin. inversion Hin; subst. lia.
  - intros e. destruct (completes (faults w) (length all)) eqn:Hc; [done|].
    intros _. apply bool_decide_eq_false in Hc.
    rewrite store_run_writes. unfold _get_latest_updatetime.
    rewrite updates_apply_writes.
    assert (∃ k, k ≤ length ws ∧ take (accepted (faults w) (length all)) all
                                  = take k ws) as (k & Hk & ->).
    { exists (accepted (faults w) (length all)). unfold accepted in *.
      destruct (faults w) as [f|]; [|done].
      unfold all in *. rewrite length_app in *. cbn [length] in *.
      split; [lia|]. apply take_app_le. lia. }
    assert (updates_of (take k ws) = []) as ->.
    { apply updates_of_none.
      pose proof (body_plan_no_update _ _ _ _ Hplan) as Hall.
      rewrite Forall_forall in *. intros wr Hin. apply Hall.
      eapply subseteq_take; eauto. }
    by rewrite app_nil_r.
Qed.

End Readers.

(** ** Further properties of [create_corpus] and [supplement_corpus] *)
Section Methods.
Context {Statement : Type} `{!Collaborators Statement}.
Implicit Types (w : World Statement) (wr : DbWrite Statement).
Implicit Types (ws : list (DbWrite Statement)) (d : DB Statement).
Implicit Types (self : PreassemblyManager).
Implicit Types (s a b : Statement) (pa : list Statement).

Lemma body_plan_shape self (t : task) d ws :
  body_plan self t d = Some ws →
  ∃ (mk_done : gset Z) bs (S : gset (Z * Z)),
    ws = (dedup_plan mk_done ∅ bs).2 ++ [CopySupport S]
    ∧ (t = Update → mk_done = hashes (pa_statements d))
    ∧ (∀ c, t = Create c → ∃ ids, create_inputs c d = Some (ids, mk_done)).
Proof.
  destruct t as [c|]; cbn [body_plan].
  - unfold create_plan.
    destruct (create_inputs c d) as [[ids mk_done]|] eqn:Hin; [|done].
    intros [= <-].
    destruct (create_dedup_writes_plan self ids mk_done d) as [bs ->].
    exists mk_done, bs. eexists. split; [reflexivity|]. split; [done|].
    intros c' [= <-]. eauto.
  - intros [= <-]. unfold supplement_plan, supplement_dedup. cbv zeta.
    eexists _, _, _. split; [reflexivity|]. split; [done|]. done.
Qed.

Lemma completed_run_store self (t : task) w w' :
  run_task self t w = (Returned true, w') →
  ∃ ws, body_plan self t (store w) = Some ws
        ∧ store w' = apply_writes
                       (ws ++ [InsertUpdate (is_create t) (clock w)]) (store w).
Proof.
  rewrite run_task_plan.
  destruct (body_plan self t (store w)) as [ws|]; [|done].
  intros (_ & -> & _)%run_plan_returned. exists ws.
  by rewrite store_run_writes.
Qed.

Lemma filter_hash_empty pa (mk_set : gset Z) :
  mk_set = ∅ → filter (λ s, get_hash s ∈ mk_set) pa = [].
Proof.
  intros ->. induction pa as [|s pa IH]; [done|].
  rewrite filter_cons. destruct (decide _) as [Hin|]; [set_solver|done].
Qed.

Lemma supplement_links_empty self pa (old_mk_set : gset Z) :
  supplement_links self pa ∅ old_mk_set = ∅.
Proof.
  unfold supplement_links. cbv zeta beta.
  by rewrite (filter_hash_empty pa ∅), batch_iter_nil.
Qed.

Lemma create_dedup_writes_raw self ids (mk_done : gset Z) d d' :
  raw_statements d = raw_statements d' →
  create_dedup_writes self ids mk_done d = create_dedup_writes self ids mk_done d'.
Proof.
  intros Hraw. unfold create_dedup_writes, create_stmts. by rewrite Hraw.
Qed.

Lemma create_dedup_writes_support self ids (mk_done : gset Z) d :
  support_of (create_dedup_writes self ids mk_done d) = [].
Proof.
  destruct (create_dedup_writes_plan self ids mk_done d) as [bs ->].
  apply dedup_plan_support.
Qed.

(** X9.  When every distilled raw statement already has an evidence
    link, a completed [supplement_corpus] changes nothing but the ledger:
    it adds no unique statement, no evidence link and no support link. *)
Theorem supplement_nothing_new self w w' :
  (∀ s, s ∈ raw_statements (store w) → uuid s ∈ distill_stmts (store w) →
        ∃ h, (h, uuid s) ∈ raw_unique_links (store w)) →
  supplement_corpus self w = (Returned true, w') →
  store w' = apply_write (InsertUpdate false (clock w)) (store w).
Proof.
  intros Hall. rewrite supplement_corpus_plan.
  intros (_ & -> & _)%run_plan_returned. rewrite store_run_writes.
  assert (new_stmts_of (store w) = []) as Hnew.
  { apply elem_of_nil_inv. intros s (Hs & Hd & Hno)%elem_of_new_stmts.
    destruct (Hall s Hs Hd) as [h Hh]. by apply (Hno h). }
  unfold supplement_plan, supplement_dedup. rewrite Hnew, batch_iter_nil.
  cbn [dedup_plan fst snd app pa_of mbind list_bind].
  rewrite supplement_links_empty.
  cbn [apply_writes foldl apply_write]. rewrite elements_empty.
  destruct (store w); cbn. by rewrite app_nil_r.
Qed.

(** X10.  [create_corpus] with [continuing=True] on a store that holds
    no evidence link raises [ValueError] before it writes anything. *)
Theorem continuing_without_links_raises self w :
  raw_unique_links (store w) = [] →
  create_corpus self true w = (Raised ValueError, w).
Proof.
  intros Hl. rewrite create_corpus_plan. unfold create_plan, create_inputs.
  by rewrite Hl.
Qed.

(** X12.  [create_corpus] without [continuing] never looks at the unique
    statements and the evidence links already stored: a second completed
    initial build over the same distilled raw statements appends the
    unique statements and the evidence links of the first once more. *)
Theorem initial_build_twice_duplicates self w w1 w2 :
  create_corpus self false w = (Returned true, w1) →
  distill_stmts (store w1) = distill_stmts (store w) →
  create_corpus self false w1 = (Returned true, w2) →
  ∃ stmts links,
    pa_statements (store w1) = pa_statements (store w) ++ stmts
    ∧ pa_statements (store w2) = pa_statements (store w1) ++ stmts
    ∧ raw_unique_links (store w1) = raw_unique_links (store w) ++ links
    ∧ raw_unique_links (store w2) = raw_unique_links (store w1) ++ links.
Proof.
  rewrite !create_corpus_plan. unfold create_plan, create_inputs.
  intros (_ & -> & _)%run_plan_returned Hd.
  intros (_ & -> & _)%run_plan_returned.
  rewrite Hd. rewrite !store_run_writes in *.
  set (dw := create_dedup_writes self (distill_stmts (store w)) ∅ (store w)).
  set (d1 := apply_writes _ (store w)).
  assert (create_dedup_writes self (distill_stmts (store w)) ∅ d1 = dw) as ->.
  { apply create_dedup_writes_raw. unfold d1. apply raw_apply_writes. }
  exists (pa_of dw), (links_of dw).
  rewrite !pa_apply_writes, !links_apply_writes.
  unfold d1. rewrite !pa_apply_writes, !links_apply_writes.
  rewrite !pa_of_app, !links_of_app.
  cbn [pa_of links_of mbind list_bind]. by rewrite !app_nil_r.
Qed.

(** X13.  With a positive batch size a completed [create_corpus],
    continued or not, appends to [pa_support_links] exactly the links
    [_get_support_links] finds on the whole table of unique statements
    as the deduplication left it. *)
Theorem create_corpus_links_whole_table self (c : bool) w w' :
  0 < batch_size self →
  create_corpus self c w = (Returned true, w') →
  _get_support_links (pa_statements (store w')) (Some (n_proc self)) None
    = Some (support_links_of (pa_statements (store w')) None)
  ∧ pa_support_links (store w')
    = pa_support_links (store w)
      ++ elements (support_links_of (pa_statements (store w')) None).
Proof.
  intros Hn. rewrite create_corpus_plan. unfold create_plan.
  destruct (create_inputs c (store w)) as [[ids mk_done]|]; [|done].
  intros (_ & -> & _)%run_plan_returned. rewrite store_run_writes.
  split; [apply get_support_links_eq|].
  rewrite support_apply_writes, pa_apply_writes.
  rewrite !support_of_app, !pa_of_app, create_dedup_writes_support.
  cbn [pa_of support_of mbind list_bind app]. rewrite !app_nil_r.
  rewrite tiling_correct, mjoin_batch_iter.
  by destruct (batch_size self); [lia|].
Qed.

(** X14.  [supplement_corpus] keeps the table of support links exact:
    if the unique statements have distinct hashes and the support links
    are exactly the refinements between unique statements of different
    hash, the same holds after a completed update with a positive batch
    size. *)
Theorem supplement_keeps_links_exact self w w' :
  0 < batch_size self →
  NoDup (get_hash <$> pa_statements (store w)) →
  (∀ x y, (x, y) ∈ pa_support_links (store w)
          ↔ hash_link (pa_statements (store w)) x y) →
  supplement_corpus self w = (Returned true, w') →
  NoDup (get_hash <$> pa_statements (store w'))
  ∧ ∀ x y, (x, y) ∈ pa_support_links (store w')
           ↔ hash_link (pa_statements (store w')) x y.
Proof.
  intros Hn Hnd Hex. rewrite supplement_corpus_plan.
  intros (_ & -> & _)%run_plan_returned. rewrite store_run_writes.
  unfold supplement_plan, supplement_dedup. cbv zeta.
  set (pa := pa_statements (store w)) in *.
  set (bs := batch_iter _ _).
  set (dp := dedup_plan (hashes pa) ∅ bs).
  rewrite pa_apply_writes, support_apply_writes.
  rewrite !pa_of_app, !support_of_app.
  cbn [pa_of support_of mbind list_bind app]. rewrite !app_nil_r.
  destruct (dedup_plan_support (hashes pa) ∅ bs) as [Hsup _].
  fold dp in Hsup. rewrite Hsup, app_nil_l.
  destruct (dedup_writes_linked (hashes pa) bs pa [] Hnd (reflexivity _))
    as [Hnd' _]. fold dp in Hnd'.
  destruct (dedup_plan_pa (hashes pa) ∅ bs) as (_ & _ & Hh). fold dp in Hh.
  assert (dp.1 = hashes (pa_of dp.2)) as Hnew.
  { unfold dp at 1. rewrite dedup_plan_new, Hh. apply set_eq. set_solver. }
  assert (dp.1 ## hashes pa) as Hdisj.
  { rewrite Hnew, Hh. set_solver. }
  split; [done|]. intros x y. rewrite elem_of_app, elem_of_elements. split.
  - intros [Hold|Hin].
    + apply Hex in Hold as (a & b & Ha & Hb & Hrest).
      exists a, b. rewrite !elem_of_app. eauto 10.
    + apply supplement_links_sound in Hin; [|done..].
      destruct Hin as (a & b & Ha & Hb & Href & -> & -> & Hne & _).
      exists a, b. done.
  - intros (a & b & Ha & Hb & Href & -> & -> & Hne).
    assert (get_hash a ∈ dp.1 ∨ get_hash b ∈ dp.1 → (get_hash a, get_hash b)
              ∈ supplement_links self (pa ++ pa_of dp.2) dp.1 (hashes pa))
      as Hcomplete.
    { intros Hor. apply supplement_links_complete; try done.
      assert (∀ s, s ∈ pa ++ pa_of dp.2 → get_hash s ∈ dp.1 ∪ hashes pa) as Hall.
      { intros s Hs. rewrite Hnew, elem_of_union, !elem_of_hashes.
        apply elem_of_app in Hs as [Hs|Hs]; eauto. }
      destruct Hor; [left|right]; eauto. }
    apply elem_of_app in Ha as [Ha|Ha]; apply elem_of_app in Hb as [Hb|Hb].
    + left. apply Hex. exists a, b. done.
    + right. apply Hcomplete. right. rewrite Hnew, elem_of_hashes. eauto.
    + right. apply Hcomplete. left. rewrite Hnew, elem_of_hashes. eauto.
    + right. apply Hcomplete. left. rewrite Hnew, elem_of_hashes. eauto.
Qed.

(** X15.  After a completed run on a store the task is ready for (and,
    for an update, whose unique statements are all linked), the unique
    statements have distinct hashes and each of their hashes has an
    evidence link. *)
Theorem completed_run_linked self (t : task) w w' :
  ready t (store w) → (t = Update → linked (store w)) →
  run_task self t w = (Returned true, w') →
  linked (store w').
Proof.
  intros Hready Hupd (ws & Hplan & ->)%completed_run_store.
  destruct (body_plan_shape _ _ _ _ Hplan)
    as (mk_done & bs & S & -> & Hu & Hc).
  assert (NoDup (get_hash <$> pa_statements (store w))
          ∧ hashes (pa_statements (store w)) ⊆ mk_done
          ∧ hashes (pa_statements (store w))
            ⊆ list_to_set (raw_unique_links (store w)).*1) as (Hnd & Hdone & Hl).
  { destruct t as [c|].
    - destruct (Hc c eq_refl) as [ids Hin].
      by eapply ready_done.
    - rewrite (Hu eq_refl). destruct (Hupd eq_refl) as [H1 H2]. done. }
  destruct (dedup_writes_linked mk_done bs _ (raw_unique_links (store w))
              Hnd Hdone) as [H1 H2].
  unfold linked. rewrite pa_apply_writes, links_apply_writes.
  rewrite !pa_of_app, !links_of_app.
  cbn [pa_of links_of mbind list_bind app]. rewrite !app_nil_r.
  split; [done|]. by apply H2.
Qed.

End Methods.

(** ** The pipeline of the tests *)
Section PipelineProperties.
Context {Statement : Type} `{!Collaborators Statement}.
Implicit Types (s a b : Statement) (us : list Statement).

Lemma stmt_dict_snoc us s :
  stmt_dict (us ++ [s]) = <[get_hash s := s]> (stmt_dict us).
Proof. unfold stmt_dict. by rewrite foldl_snoc. Qed.

Lemma dom_stmt_dict us : dom (stmt_dict us) = hashes us.
Proof.
  induction us as [|s us IH] using rev_ind.
  { unfold stmt_dict, hashes. cbn. apply dom_empty_L. }
  rewrite stmt_dict_snoc, dom_insert_L, IH, hashes_app, hashes_cons.
  apply set_eq. set_solver.
Qed.

Lemma stmt_dict_lookup us h s :
  stmt_dict us !! h = Some s → s ∈ us ∧ get_hash s = h.
Proof.
  induction us as [|s0 us IH] using rev_ind; [done|].
  rewrite stmt_dict_snoc. intros [[<- <-]|[_ Hl]]%lookup_insert_Some.
  - split; [|done]. apply elem_of_app. right. by apply list_elem_of_singleton.
  - destruct (IH Hl). split; [|done]. apply elem_of_app. by left.
Qed.

Lemma support_links_members us (split : option nat) x y :
  (x, y) ∈ support_links_of us split → x ∈ hashes us ∧ y ∈ hashes us.
Proof.
  intros (i & j & a & b & Hi & Hj & _ & _ & -> & ->)%elem_of_support_links.
  rewrite !elem_of_hashes. split; eexists; split; try done;
    by eapply list_elem_of_lookup_2.
Qed.

(** X16.  [_process_statements] always returns.  Every key of the
    dictionary it returns is the hash of the unique statement stored
    under it, and every hash the evidence links and the support links
    mention is a key of the dictionary. *)
Theorem process_statements_keys (stmts : list Statement)
    (poolsize split_idx : option nat) :
  ∃ (unique_stmt_dict : gmap Z Statement) evidence_links match_key_maps,
    _process_statements stmts poolsize split_idx
      = Some (unique_stmt_dict, evidence_links, match_key_maps)
    ∧ (∀ h s, unique_stmt_dict !! h = Some s →
         get_hash s = h ∧ s ∈ (_make_unique_statement_set stmts).1)
    ∧ (∀ h u, (h, u) ∈ evidence_links → h ∈ dom unique_stmt_dict)
    ∧ (∀ x y, (x, y) ∈ match_key_maps →
         x ∈ dom unique_stmt_dict ∧ y ∈ dom unique_stmt_dict).
Proof.
  unfold _process_statements.
  destruct (_make_unique_statement_set stmts) as [us ev] eqn:Hmade.
  rewrite get_support_links_eq. cbn [mbind option_bind].
  eexists _, _, _. split; [reflexivity|]. cbn [fst].
  split; [|split].
  - intros h s Hl. by destruct (stmt_dict_lookup _ _ _ Hl).
  - intros h u Hin. rewrite dom_stmt_dict.
    assert (ev = (_make_unique_statement_set stmts).2) as ->
      by by rewrite Hmade.
    assert (us = (_make_unique_statement_set stmts).1) as ->
      by by rewrite Hmade.
    apply elem_of_unique_links in Hin as (g & m & Hg & Hm & -> & ->).
    rewrite make_unique_fst, elem_of_hashes.
    exists (make_generic_copy g.2.1). split; [|done].
    apply list_elem_of_fmap. eauto.
  - intros x y Hin. rewrite dom_stmt_dict.
    by apply support_links_members in Hin.
Qed.

(** X17.  On dictionaries whose keys are the hashes of their statements
    [_get_increment_links] always returns; every link it returns joins
    two hashes that are keys of one dictionary only, at least one of them
    a key of the new dictionary only.  A hash both dictionaries hold is
    never linked, and neither are two hashes of the old dictionary. *)
Theorem increment_links_exclusive
    (unique_stmt_dict new_unique_stmt_dict : gmap Z Statement)
    (poolsize : option nat) :
  (∀ h s, unique_stmt_dict !! h = Some s → get_hash s = h) →
  (∀ h s, new_unique_stmt_dict !! h = Some s → get_hash s = h) →
  let only_old : gset Z := dom unique_stmt_dict ∖ dom new_unique_stmt_dict in
  let only_new : gset Z := dom new_unique_stmt_dict ∖ dom unique_stmt_dict in
  ∃ links,
    _get_increment_links unique_stmt_dict new_unique_stmt_dict poolsize
      = Some links
    ∧ ∀ x y, (x, y) ∈ links →
        (x ∈ only_new ∧ y ∈ only_old ∪ only_new)
        ∨ (y ∈ only_new ∧ x ∈ only_old ∪ only_new).
Proof.
  intros Hold Hnew only_old only_new. unfold _get_increment_links. cbv zeta.
  fold only_old only_new.
  assert (∀ (m : gmap Z Statement) (X : gset Z), X ⊆ dom m →
            ∃ l, mapM (λ mk_hash, m !! mk_hash) (elements X) = Some l) as Hmap.
  { intros m X HX. apply (mapM_is_Some_2 (λ mk_hash, m !! mk_hash)).
    apply Forall_forall. intros h Hh%elem_of_elements. cbn.
    apply elem_of_dom. by apply HX. }
  destruct (Hmap unique_stmt_dict only_old) as [oo Hoo]; [set_solver|].
  destruct (Hmap new_unique_stmt_dict only_new) as [nn Hnn]; [set_solver|].
  rewrite Hoo, Hnn. cbn [mbind option_bind].
  rewrite get_support_links_eq. cbn [mbind option_bind].
  eexists. split; [reflexivity|].
  assert (∀ s, s ∈ oo → get_hash s ∈ only_old) as Hoo'.
  { intros s Hs. apply (mapM_elem_of _ _ _ s Hoo) in Hs as (h & Hh & Hl).
    rewrite (Hold _ _ Hl). by apply elem_of_elements. }
  assert (∀ s, s ∈ nn → get_hash s ∈ only_new) as Hnn'.
  { intros s Hs. apply (mapM_elem_of _ _ _ s Hnn) in Hs as (h & Hh & Hl).
    rewrite (Hnew _ _ Hl). by apply elem_of_elements. }
  assert (∀ s, s ∈ oo ++ nn → get_hash s ∈ only_old ∪ only_new) as Hall.
  { intros s [Hs|Hs]%elem_of_app; apply elem_of_union; eauto. }
  assert (∀ i s, (oo ++ nn) !! i = Some s → length oo + 1 ≤ i →
                 get_hash s ∈ only_new) as Hright.
  { intros i s Hi Hle. apply Hnn'.
    apply lookup_app_Some in Hi as [Hi|[_ Hi]].
    - apply lookup_lt_Some in Hi. lia.
    - by eapply list_elem_of_lookup_2. }
  intros x y [Hin|Hin]%elem_of_union; [set_solver|].
  apply elem_of_support_links in Hin
    as (i & j & a & b & Hi & Hj & Hscope & _ & -> & ->).
  apply in_scope_spec in Hscope as [[_ Hle]|[_ Hle]].
  - right. split; [by eapply Hright|].
    apply Hall. by eapply list_elem_of_lookup_2.
  - left. split; [by eapply Hright|].
    apply Hall. by eapply list_elem_of_lookup_2.
Qed.

End PipelineProperties.

(** ** Interrupted passes, and the continued build against the update *)
Section Passes.
Context {Statement : Type} `{!Collaborators Statement}.
Implicit Types (w : World Statement) (d : DB Statement).
Implicit Types (self : PreassemblyManager).
Implicit Types (bs : list (list Statement)) (mk_done new_mk_set : gset Z).


Lemma filter_iff_elem {A} (P Q : A → Prop) `{!∀ x, Decision (P x)}
    `{!∀ x, Decision (Q x)} (xs : list A) :
  (∀ x, x ∈ xs → P x ↔ Q x) → filter P xs = filter Q xs.
Proof.
  induction xs as [|x xs IH]; intros Hiff; [done|].
  rewrite !filter_cons.
  assert (P x ↔ Q x) as Hx by (apply Hiff, elem_of_cons; by left).
  rewrite IH by (intros y Hy; apply Hiff, elem_of_cons; by right).
  destruct (decide (P x)), (decide (Q x)); tauto || done.
Qed.

Lemma continued_build_statements d :
  create_stmts (distill_stmts d ∖ list_to_set (raw_unique_links d).*2) d
  = new_stmts_of d.
Proof.
  unfold create_stmts, new_stmts_of. apply filter_iff_elem. intros s Hs.
  rewrite elem_of_new_stmt_ids, elem_of_difference, elem_of_list_to_set.
  split.
  - intros [Hd Hno]. split_and!; [|done|].
    + apply list_elem_of_fmap. eauto.
    + intros h Hin. apply Hno. apply list_elem_of_fmap. by exists (h, uuid s).
  - intros (_ & Hd & Hno). split; [done|].
    intros ([h u] & Hu & Hin)%list_elem_of_fmap. cbn in Hu. subst u.
    by apply (Hno h).
Qed.

Lemma continued_build_dedup_writes self d (mk_done : gset Z) :
  create_dedup_writes self
    (distill_stmts d ∖ list_to_set (raw_unique_links d).*2) mk_done d
  = (dedup_plan mk_done ∅ (batch_iter (new_stmts_of d) (batch_size self))).2.
Proof.
  unfold create_dedup_writes.
  destruct (decide _) as [Hne|Heq]; [by rewrite continued_build_statements|].
  rewrite <- continued_build_statements.
  apply dec_stable in Heq.
  assert (∀ ids : gset string, ids = ∅ → create_stmts ids d = []) as Hnil.
  { intros ids ->. apply elem_of_nil_inv.
    intros s [Hin _]%list_elem_of_filter. set_solver. }
  by rewrite (Hnil _ Heq), batch_iter_nil.
Qed.


(** X20.  On a store where the hashes of the evidence links are the
    hashes of the unique statements, the continued build deduplicates
    like the update: after a completed [create_corpus] with
    [continuing=True] the unique statements and the evidence links are
    those a completed [supplement_corpus] leaves. *)
Theorem continued_build_dedups_like_update self w w1 w2 :
  list_to_set (raw_unique_links (store w)).*1 = hashes (pa_statements (store w)) →
  create_corpus self true w = (Returned true, w1) →
  supplement_corpus self w = (Returned true, w2) →
  pa_statements (store w1) = pa_statements (store w2)
  ∧ raw_unique_links (store w1) = raw_unique_links (store w2).
Proof.
  intros Hdone. rewrite create_corpus_plan, supplement_corpus_plan.
  unfold create_plan, create_inputs.
  destruct (raw_unique_links (store w)) as [|r rs] eqn:Hl; [done|].
  rewrite <- Hl in *.
  intros (_ & -> & _)%run_plan_returned (_ & -> & _)%run_plan_returned.
  rewrite !store_run_writes, !pa_apply_writes, !links_apply_writes.
  rewrite continued_build_dedup_writes, Hdone.
  unfold supplement_plan, supplement_dedup. cbv zeta.
  rewrite !pa_of_app, !links_of_app.
  cbn [pa_of links_of mbind list_bind app]. by rewrite !app_nil_r.
Qed.

(** X21.  The support links a completed [supplement_corpus] appends
    never join two statements that were both in the table before the
    update: each of them has an end that is new, and its two ends
    differ. *)
Theorem supplement_links_touch_new self w w' :
  supplement_corpus self w = (Returned true, w') →
  ∃ added,
    pa_support_links (store w') = pa_support_links (store w) ++ added
    ∧ ∀ x y, (x, y) ∈ added →
        x ≠ y
        ∧ (x ∉ hashes (pa_statements (store w))
           ∨ y ∉ hashes (pa_statements (store w))).
Proof.
  rewrite supplement_corpus_plan.
  intros (_ & -> & _)%run_plan_returned. rewrite store_run_writes.
  unfold supplement_plan, supplement_dedup. cbv zeta.
  set (pa := pa_statements (store w)) in *.
  set (bs := batch_iter _ _).
  set (dp := dedup_plan (hashes pa) ∅ bs).
  rewrite support_apply_writes, !support_of_app.
  cbn [support_of mbind list_bind app]. rewrite !app_nil_r.
  destruct (dedup_plan_support (hashes pa) ∅ bs) as [Hsup _].
  fold dp in Hsup. rewrite Hsup, app_nil_l.
  eexists. split; [reflexivity|]. intros x y Hin%elem_of_elements.
  destruct (dedup_plan_pa (hashes pa) ∅ bs) as (Hnd & _ & Hh).
  fold dp in Hnd, Hh.
  assert (dp.1 ## hashes pa) as Hdisj.
  { unfold dp. rewrite dedup_plan_new. set_solver. }
  set (P := λ s : Statement, get_hash s ∈ dp.1).
  assert (NoDup (get_hash <$> filter P (pa ++ pa_of dp.2))) as Hnew.
  { rewrite filter_app.
    assert (filter P pa = []) as ->.
    { apply elem_of_nil_inv. intros s [HP Hs]%list_elem_of_filter.
      apply (Hdisj (get_hash s)); [done|]. apply elem_of_hashes. eauto. }
    eapply NoDup_hash_sublist; [apply sublist_filter|done]. }
  apply elem_of_supplement_links in Hin as (npa & Hnpa & Hcase).
  assert (∀ a, a ∈ npa → get_hash a ∈ dp.1) as Hnpa_new.
  { intros a Ha. by destruct (elem_of_batch_filter _ _ _ _ _ Hnpa Ha). }
  assert (∀ h : Z, h ∈ dp.1 → h ∉ hashes pa) as Hfresh.
  { intros h Hh1 Hh2. by apply (Hdisj h). }
  destruct Hcase as [Hin|[(dnpa & Hd & Hc)|(opa & Ho & Hc)]].
  - apply elem_of_within_NoDup in Hin.
    + destruct Hin as (a & b & Ha & Hb & _ & -> & -> & Hne).
      split; [done|]. left. by apply Hfresh, Hnpa_new.
    + eapply NoDup_hash_sublist; [|exact Hnew].
      by eapply batch_iter_sublist.
  - destruct Hc as (a & b & Ha & Hb & Hor).
    destruct (elem_of_batch_filter _ _ _ _ _ Hd Hb) as [Hb' _].
    apply elem_of_difference in Hb' as [Hb1 Hb2].
    assert (get_hash a ≠ get_hash b) as Hne.
    { intros Heq. apply Hb2. rewrite <- Heq. apply elem_of_hashes. eauto. }
    destruct Hor as [(_ & -> & ->)|(_ & -> & ->)].
    + split; [done|]. left. by apply Hfresh, Hnpa_new.
    + split; [done|]. left. by apply Hfresh.
  - destruct Hc as (a & b & Ha & Hb & Hor).
    destruct (elem_of_batch_filter _ _ _ _ _ Ho Hb) as [Hb' _].
    assert (get_hash a ≠ get_hash b) as Hne.
    { intros Heq. apply (Hdisj (get_hash a)); [by apply Hnpa_new|].
      by rewrite Heq. }
    destruct Hor as [(_ & -> & ->)|(_ & -> & ->)].
    + split; [done|]. left. by apply Hfresh, Hnpa_new.
    + split; [done|]. right. by apply Hfresh, Hnpa_new.
Qed.

End Passes.

(** * The properties on the small instance *)

Import Toy.
Import Toy2.

Lemma evidence_links_emitted_regardless_witness :
  let r := dedup_batch {[5%Z]} ∅ [A; B; C] (fresh [] None) in
  raw_unique_links (store r.2)
  = [] ++ elements (_make_unique_statement_set [A; B; C]).2
  ∧ pa_statements (store r.2) = [(""%string, "XpY"%string)].
Proof.
  pose proof (evidence_links_emitted_regardless {[5%Z]} ∅ [A; B; C]
                (fresh [] None) _ _ eq_refl) as (H1 & _ & _).
  split; [exact H1 | reflexivity].
Defined.

(** C4, as stated, fails: against the very same done set the second pass
    returns the same non-empty set of new hashes as the first. *)
Lemma rededup_same_done_counterexample :
  let pass1 := _get_unique_statements mgr2 [A] 1 None (fresh [A] None) in
  let pass2 := _get_unique_statements mgr2 [A] 1 None pass1.2 in
  pass1.1 = Returned {[5%Z]} ∧ pass2.1 = Returned {[5%Z]}
  ∧ pass2.1 ≠ Returned ∅
  ∧ pa_statements (store pass2.2)
    = [(""%string, "XpY@S"%string); (""%string, "XpY@S"%string)].
Proof. vm_compute. split_and!; try reflexivity. intros [=]. Qed.

Lemma rededup_after_merge_witness :
  let w := fresh [] None in
  let pass1 := _get_unique_statements mgr2 [A; B; C] 3 None w in
  let pass2 := _get_unique_statements mgr2 [A; B; C] 3
                 (Some (∅ ∪ {[5%Z; 3%Z]})) pass1.2 in
  pass1.1 = Returned {[5%Z; 3%Z]} ∧ pass2.1 = Returned ∅
  ∧ pa_statements (store pass2.2) = pa_statements (store pass1.2).
Proof.
  cbv zeta.
  set (w := fresh [] None).
  set (pass1 := _get_unique_statements mgr2 [A; B; C] 3 None w).
  set (pass2 := _get_unique_statements mgr2 [A; B; C] 3
                  (Some (∅ ∪ {[5%Z; 3%Z]})) pass1.2).
  assert (pass1 = (Returned {[5%Z; 3%Z]}, pass1.2)) as H1
    by (vm_compute; reflexivity).
  assert (pass2 = (Returned ∅, pass2.2)) as H2 by (vm_compute; reflexivity).
  destruct (rededup_after_merge mgr2 [A; B; C] 3 None w
              {[5%Z; 3%Z]} pass1.2 ∅ pass2.2 H1 H2) as (_ & Hpa & _).
  split_and!; [by rewrite H1 | by rewrite H2 | exact Hpa].
Defined.





(** The small instance keeps the contracts of the collaborators. *)
Lemma toy_hash_of_key (a b : Stmt) :
  matches_key a = matches_key b → get_hash a = get_hash b.
Proof. destruct a, b. cbn. by intros ->. Qed.

Lemma toy_generic_copy_hash (s : Stmt) :
  get_hash (make_generic_copy s) = get_hash s.
Proof. done. Qed.

Lemma toy_map_grounding_app (l1 l2 : list Stmt) :
  map_grounding (l1 ++ l2) ≡ₚ map_grounding l1 ++ map_grounding l2.
Proof. done. Qed.

Lemma toy_map_sequence_app (l1 l2 : list Stmt) :
  map_sequence (l1 ++ l2) ≡ₚ map_sequence l1 ++ map_sequence l2.
Proof. done. Qed.




Lemma dedup_batch_invariance_witness :
  ∃ new w1 w2,
    dedup_batches ∅ ∅ [[A; B]; [C]] (fresh [] None) = (Returned new, w1)
    ∧ dedup_batches ∅ ∅ [[A]; [B; C]] (fresh [] None) = (Returned new, w2)
    ∧ hashes (pa_statements (store w1)) = hashes (pa_statements (store w2))
    ∧ list_to_set (raw_unique_links (store w1))
      =@{gset (Z * string)} list_to_set (raw_unique_links (store w2)).
Proof.
  apply (dedup_batch_invariance toy_hash_of_key toy_generic_copy_hash
           toy_map_grounding_app toy_map_sequence_app ∅ (fresh [] None) eq_refl).
  reflexivity.
Defined.


Lemma ledger_timestamp_is_run_start_witness :
  let w := fresh [A; B; C] None in
  last (preassembly_updates (store (run_task mgr2 (Create false) w).2))
  = Some (true, 0)
  ∧ clock w < clock (run_task mgr2 (Create false) w).2.
Proof.
  cbv zeta.
  destruct (ledger_timestamp_is_run_start mgr2 (Create false)
              (fresh [A; B; C] None)
              (run_task mgr2 (Create false) (fresh [A; B; C] None)).2)
    as (H1 & _ & H3).
  - vm_compute. reflexivity.
  - split; [exact H1|exact H3].
Defined.

Lemma supplement_processes_unlinked_witness :
  let w := ingest [C] (create_corpus mgr2 false (fresh [A; B] None)).2 in
  let w' := (supplement_corpus mgr2 w).2 in
  new_stmts_of (store w) = [C]
  ∧ concat (batch_iter (new_stmts_of (store w)) (batch_size mgr2))
    = new_stmts_of (store w)
  ∧ raw_unique_links (store w') = raw_unique_links (store w) ++ [(3%Z, "c"%string)]
  ∧ get_hash <$> pa_statements (store w') = [5%Z; 3%Z].
Proof.
  cbv zeta.
  destruct (supplement_processes_unlinked mgr2
              (ingest [C] (create_corpus mgr2 false (fresh [A; B] None)).2)
              (supplement_corpus mgr2
                 (ingest [C] (create_corpus mgr2 false (fresh [A; B] None)).2)).2)
    as (_ & _ & H3 & _).
  - cbn. lia.
  - vm_compute. reflexivity.
  - split_and!; [vm_compute; reflexivity|exact H3|vm_compute; reflexivity..].
Defined.

(** C9, as stated, fails for a batch size of zero: the batch iterator
    yields no batch, the update completes and writes its ledger record,
    and the one raw statement it selected is neither deduplicated nor
    linked. *)
Lemma supplement_batch_size_zero_counterexample :
  let w := ingest [C] (create_corpus mgr2 false (fresh [A; B] None)).2 in
  let r := supplement_corpus (mkManager 1 0) w in
  r.1 = Returned true
  ∧ new_stmts_of (store w) = [C]
  ∧ pa_statements (store r.2) = pa_statements (store w)
  ∧ raw_unique_links (store r.2) = raw_unique_links (store w)
  ∧ (∀ h, (h, uuid C) ∉ raw_unique_links (store r.2))
  ∧ preassembly_updates (store r.2)
    = preassembly_updates (store w) ++ [(false, clock w)].
Proof.
  cbv zeta. split_and!; try (vm_compute; reflexivity).
  intros h.
  assert (raw_unique_links
            (store (supplement_corpus (mkManager 1 0)
                      (ingest [C] (create_corpus mgr2 false
                                     (fresh [A; B] None)).2)).2)
          = [(5%Z, "a"%string); (5%Z, "b"%string)]) as ->
    by (vm_compute; reflexivity).
  intros Hin. repeat (apply elem_of_cons in Hin as [[=]|Hin]).
  by apply elem_of_nil in Hin.
Qed.

(** The second instance keeps the contracts of the collaborators, but
    for the one on distilling. *)
Lemma toy2_hash_of_key (a b : Stmt2) :
  matches_key a = matches_key b → get_hash a = get_hash b.
Proof. destruct a, b. cbn. unfold hash2. cbn. by intros ->. Qed.

Lemma toy2_generic_copy_hash (s : Stmt2) :
  get_hash (make_generic_copy s) = get_hash s.
Proof. done. Qed.

Lemma toy2_map_grounding_app (l1 l2 : list Stmt2) :
  map_grounding (l1 ++ l2) ≡ₚ map_grounding l1 ++ map_grounding l2.
Proof. done. Qed.

Lemma toy2_map_sequence_app (l1 l2 : list Stmt2) :
  map_sequence (l1 ++ l2) ≡ₚ map_sequence l1 ++ map_sequence l2.
Proof. done. Qed.

Lemma toy2_normalize_uuid (s m : Stmt2) : m ∈ normalize [s] → uuid m = uuid s.
Proof. by intros ->%list_elem_of_singleton. Qed.

Lemma toy2_refinement_hash (a a' b b' : Stmt2) :
  get_hash a = get_hash a' → get_hash b = get_hash b' →
  refinement_of a b = refinement_of a' b'.
Proof. cbn. by intros -> ->. Qed.


Lemma evidence_links_functional_witness :
  NoDup (uuid <$> map_sequence (map_grounding [A; B; C]))
  ∧ (5%Z, "a"%string) ∈ (_make_unique_statement_set [A; B; C]).2
  ∧ 5%Z = 5%Z.
Proof.
  assert (Hnd : NoDup (uuid <$> map_sequence (map_grounding [A; B; C]))).
  { apply (bool_decide_unpack _); vm_compute; exact I. }
  assert (Hin : (5%Z, "a"%string) ∈ (_make_unique_statement_set [A; B; C]).2).
  { apply (bool_decide_unpack _); vm_compute; exact I. }
  split_and!; [exact Hnd|exact Hin|].
  exact (evidence_links_functional [A; B; C] "a" 5 5 Hnd Hin Hin).
Defined.

Lemma get_unique_statements_returns_inserted_witness :
  let r := _get_unique_statements mgr2 [A; B; C] 3 (Some {[3%Z]})
             (fresh [A; B; C] None) in
  r.1 = Returned {[5%Z]}
  ∧ ∃ inserted,
      pa_statements (store r.2)
        = pa_statements (store (fresh [A; B; C] None)) ++ inserted
      ∧ NoDup (get_hash <$> inserted)
      ∧ ({[5%Z]} : gset Z) = hashes inserted
      ∧ ({[5%Z]} : gset Z) ## default ∅ (Some {[3%Z]}).
Proof.
  assert (Hr : _get_unique_statements mgr2 [A; B; C] 3 (Some {[3%Z]})
                 (fresh [A; B; C] None)
               = (Returned {[5%Z]},
                  (_get_unique_statements mgr2 [A; B; C] 3 (Some {[3%Z]})
                     (fresh [A; B; C] None)).2)).
  { rewrite get_unique_statements_plan, run_plan_None by done.
    f_equal; vm_compute; reflexivity. }
  split; [by rewrite Hr|].
  exact (get_unique_statements_returns_inserted mgr2 [A; B; C] 3
           (Some {[3%Z]}) (fresh [A; B; C] None) _ _ Hr).
Defined.

Lemma pa_batch_iter_batches_witness :
  let w := (create_corpus mgr2 false (fresh [A; B; C] None)).2 in
  ∃ batches,
    _pa_batch_iter mgr2 (Some {[3%Z]}) w = (Returned batches, w)
    ∧ concat batches = [(""%string, "XpY"%string)]
    ∧ Forall (λ batch, 0 < length batch ≤ batch_size mgr2) batches.
Proof.
  cbv zeta.
  destruct (pa_batch_iter_batches mgr2 (Some {[3%Z]})
              (create_corpus mgr2 false (fresh [A; B; C] None)).2)
    as (batches & Hrun & Hcat & Hlen); [cbn; lia|].
  exists batches. split_and!; [exact Hrun| |exact Hlen].
  rewrite Hcat. vm_compute. reflexivity.
Defined.

Lemma latest_updatetime_after_run_witness :
  let w := (create_corpus mgr2 false (fresh [A; B; C] None)).2 in
  (run_task mgr2 Update w).1 = Returned true
  ∧ _get_latest_updatetime (store (run_task mgr2 Update w).2) = Some (clock w).
Proof.
  cbv zeta.
  assert (Hle : ∀ b' t',
    (b', t') ∈ preassembly_updates
                 (store (create_corpus mgr2 false (fresh [A; B; C] None)).2) →
    t' ≤ clock (create_corpus mgr2 false (fresh [A; B; C] None)).2).
  { intros b' t'. vm_compute preassembly_updates. vm_compute clock.
    intros Hin. apply list_elem_of_singleton in Hin. inversion Hin. lia. }
  assert (Hret : (run_task mgr2 Update
                    (create_corpus mgr2 false (fresh [A; B; C] None)).2).1
                 = Returned true).
  { vm_compute. reflexivity. }
  split; [exact Hret|].
  exact (proj1 (proj1 (latest_updatetime_after_run mgr2 Update _ Hle) Hret)).
Defined.

Lemma supplement_nothing_new_witness :
  let w := (create_corpus mgr2 false (fresh [A; B; C] None)).2 in
  store (supplement_corpus mgr2 w).2
  = apply_write (InsertUpdate false (clock w)) (store w).
Proof.
  cbv zeta.
  apply (supplement_nothing_new mgr2
           (create_corpus mgr2 false (fresh [A; B; C] None)).2).
  - intros s Hs _.
    assert (raw_statements
              (store (create_corpus mgr2 false (fresh [A; B; C] None)).2)
            = [A; B; C]) as Hraw by (vm_compute; reflexivity).
    rewrite Hraw in Hs.
    assert (Forall (λ s : Stmt, uuid s ∈ (raw_unique_links
              (store (create_corpus mgr2 false (fresh [A; B; C] None)).2)).*2)
              [A; B; C]) as Hall.
    { apply (bool_decide_unpack _); vm_compute; exact I. }
    rewrite Forall_forall in Hall. apply Hall in Hs.
    apply list_elem_of_fmap in Hs as ([h u] & Hu & Hin).
    exists h. rewrite Hu. exact Hin.
  - rewrite supplement_corpus_plan, run_plan_None; [done|].
    vm_compute. reflexivity.
Defined.

Lemma continuing_without_links_raises_witness :
  create_corpus mgr2 true (fresh [A; B; C] None)
  = (Raised ValueError, fresh [A; B; C] None).
Proof.
  apply (continuing_without_links_raises mgr2 (fresh [A; B; C] None)).
  reflexivity.
Defined.

Lemma initial_build_twice_duplicates_witness :
  let w1 := (create_corpus mgr2 false (fresh [A; B; C] None)).2 in
  let w2 := (create_corpus mgr2 false w1).2 in
  get_hash <$> pa_statements (store w2) = [5%Z; 3%Z; 5%Z; 3%Z]
  ∧ ∃ stmts links,
      pa_statements (store w1)
        = pa_statements (store (fresh [A; B; C] None)) ++ stmts
      ∧ pa_statements (store w2) = pa_statements (store w1) ++ stmts
      ∧ raw_unique_links (store w1)
        = raw_unique_links (store (fresh [A; B; C] None)) ++ links
      ∧ raw_unique_links (store w2) = raw_unique_links (store w1) ++ links.
Proof.
  cbv zeta. split; [vm_compute; reflexivity|].
  apply (initial_build_twice_duplicates mgr2 (fresh [A; B; C] None)).
  - rewrite create_corpus_plan. cbn [create_plan create_inputs].
    unfold create_plan, create_inputs. rewrite !run_plan_None by done.
    done.
  - vm_compute. reflexivity.
  - rewrite (create_corpus_plan mgr2 false
               (create_corpus mgr2 false (fresh [A; B; C] None)).2).
    unfold create_plan, create_inputs. rewrite run_plan_None; [done|].
    vm_compute. reflexivity.
Defined.

Lemma create_corpus_links_whole_table_witness :
  let w' := (create_corpus mgr1 false (fresh [A; B; C] None)).2 in
  pa_support_links (store w')
  = pa_support_links (store (fresh [A; B; C] None))
    ++ elements (support_links_of (pa_statements (store w')) None).
Proof.
  cbv zeta.
  refine (proj2 (create_corpus_links_whole_table mgr1 false
                   (fresh [A; B; C] None) _ _ _)); [cbn; lia|].
  rewrite create_corpus_plan. unfold create_plan, create_inputs.
  rewrite !run_plan_None by done. done.
Defined.

Lemma supplement_keeps_links_exact_witness :
  let w := ingest [C] (create_corpus mgr2 false (fresh [A; B] None)).2 in
  let w' := (supplement_corpus mgr2 w).2 in
  NoDup (get_hash <$> pa_statements (store w'))
  ∧ ∀ x y, (x, y) ∈ pa_support_links (store w')
           ↔ hash_link (pa_statements (store w')) x y.
Proof.
  cbv zeta.
  apply (supplement_keeps_links_exact mgr2
           (ingest [C] (create_corpus mgr2 false (fresh [A; B] None)).2)).
  - cbn; lia.
  - apply (bool_decide_unpack _); vm_compute; exact I.
  - intros x y.
    assert (pa_support_links (store
              (ingest [C] (create_corpus mgr2 false (fresh [A; B] None)).2))
            = []) as -> by (vm_compute; reflexivity).
    assert (pa_statements (store
              (ingest [C] (create_corpus mgr2 false (fresh [A; B] None)).2))
            = [(""%string, "XpY@S"%string)]) as -> by (vm_compute; reflexivity).
    split; [by intros ?%elem_of_nil|].
    intros (a & b & Ha & Hb & _ & -> & -> & Hne).
    apply list_elem_of_singleton in Ha, Hb. by subst.
  - rewrite supplement_corpus_plan, run_plan_None; [done|].
    vm_compute. reflexivity.
Defined.

Lemma completed_run_linked_witness :
  linked (store (run_task mgr2 (Create false) (fresh [A; B; C] None)).2).
Proof.
  apply (completed_run_linked mgr2 (Create false) (fresh [A; B; C] None)).
  - reflexivity.
  - intros [=].
  - rewrite run_task_plan. cbn [body_plan].
    unfold create_plan, create_inputs. rewrite run_plan_None; done.
Defined.

Lemma increment_links_exclusive_witness :
  let D : Stmt := ("d", "XpY@S@T")%string in
  let old : gmap Z Stmt := stmt_dict [C] in
  let new : gmap Z Stmt := stmt_dict [A; D] in
  ∃ links,
    _get_increment_links old new None = Some links
    ∧ (5%Z, 3%Z) ∈ links ∧ (7%Z, 5%Z) ∈ links
    ∧ ∀ x y, (x, y) ∈ links →
        (x ∈ dom new ∖ dom old ∧ y ∈ dom old ∖ dom new ∪ dom new ∖ dom old)
        ∨ (y ∈ dom new ∖ dom old ∧ x ∈ dom old ∖ dom new ∪ dom new ∖ dom old).
Proof.
  cbv zeta.
  destruct (increment_links_exclusive (stmt_dict [C])
              (stmt_dict [A; ("d", "XpY@S@T")%string]) None)
    as (links & Hrun & Hlinks).
  - intros h s Hl. by destruct (stmt_dict_lookup _ _ _ Hl).
  - intros h s Hl. by destruct (stmt_dict_lookup _ _ _ Hl).
  - exists links. split; [exact Hrun|].
    assert (Some links = Some ({[(5%Z, 3%Z); (7%Z, 5%Z)]} : gset (Z * Z)))
      as [= ->].
    { rewrite <- Hrun. vm_compute. reflexivity. }
    split_and!; [set_solver|set_solver|exact Hlinks].
Defined.


Lemma continued_build_dedups_like_update_witness :
  let w := ingest [C] (create_corpus mgr2 false (fresh [A; B] None)).2 in
  get_hash <$> pa_statements (store (create_corpus mgr2 true w).2) = [5%Z; 3%Z]
  ∧ pa_statements (store (create_corpus mgr2 true w).2)
    = pa_statements (store (supplement_corpus mgr2 w).2)
  ∧ raw_unique_links (store (create_corpus mgr2 true w).2)
    = raw_unique_links (store (supplement_corpus mgr2 w).2).
Proof.
  cbv zeta. split; [vm_compute; reflexivity|].
  apply (continued_build_dedups_like_update mgr2
           (ingest [C] (create_corpus mgr2 false (fresh [A; B] None)).2)).
  - apply (bool_decide_unpack _); vm_compute; exact I.
  - assert ((create_corpus mgr2 true
               (ingest [C] (create_corpus mgr2 false (fresh [A; B] None)).2)).1
            = Returned true) as Hret by (vm_compute; reflexivity).
    destruct (create_corpus mgr2 true _) as [o w1]. cbn in Hret. by subst.
  - rewrite supplement_corpus_plan, run_plan_None; [done|].
    vm_compute. reflexivity.
Defined.

Lemma supplement_links_touch_new_witness :
  let w := ingest [C] (create_corpus mgr2 false (fresh [A; B] None)).2 in
  (5%Z, 3%Z) ∈ pa_support_links (store (supplement_corpus mgr2 w).2)
  ∧ ∃ added,
      pa_support_links (store (supplement_corpus mgr2 w).2)
        = pa_support_links (store w) ++ added
      ∧ ∀ x y, (x, y) ∈ added →
          x ≠ y
          ∧ (x ∉ hashes (pa_statements (store w))
             ∨ y ∉ hashes (pa_statements (store w))).
Proof.
  cbv zeta. split; [apply (bool_decide_unpack _); vm_compute; exact I|].
  apply (supplement_links_touch_new mgr2
           (ingest [C] (create_corpus mgr2 false (fresh [A; B] None)).2)).
  rewrite supplement_corpus_plan, run_plan_None; [done|].
  vm_compute. reflexivity.
Defined.
